(** * SampleServer-node-opcua: the simulation logic and the user lookup

    A shallow embedding of
      - [createOwnServerAddressspaceLogic]   (own address-space logic),
      - [createShowCaseMachineToolLogic]     (machine-tool show case logic),
      - [getUser] / [isValidUserAsync]       (src/user.ts),
    and the properties of the specification that are stated about them. *)

From Stdlib Require Import ZArith QArith Lqa Lia Bool.
From stdpp Require Import base option list gmap strings pretty.

Local Open Scope Z_scope.

(** ** JavaScript numbers

    A JS [number] is an IEEE-754 double (binary64).  Its finite values are
    taken as the rationals they denote; NaN and the two infinities are kept,
    because the comparisons of the source treat them specially ([NaN]
    compares false with everything).  The sum of two finite values is the
    exact sum rounded to the nearest double, ties to even, and to an infinity
    beyond the largest double.  The two zeros are one value: no operation of
    the source tells them apart. *)
Module JsNumber.

Inductive number : Type :=
| Fin (q : Q)
| NaN
| PosInf
| NegInf.

Definition Qltb (x y : Q) : bool := negb (Qle_bool y x).

(** [a < b] *)
Definition lt (a b : number) : bool :=
  match a, b with
  | NaN, _ | _, NaN => false
  | Fin x, Fin y => Qltb x y
  | NegInf, NegInf => false
  | NegInf, _ => true
  | PosInf, _ => false
  | Fin _, PosInf => true
  | Fin _, NegInf => false
  end.

(** [a > b] *)
Definition gt (a b : number) : bool := lt b a.

(** [a <= b] *)
Definition le (a b : number) : bool :=
  match a, b with
  | NaN, _ | _, NaN => false
  | Fin x, Fin y => Qle_bool x y
  | NegInf, _ => true
  | _, PosInf => true
  | PosInf, _ => false
  | Fin _, NegInf => false
  end.

(** [a >= b] *)
Definition ge (a b : number) : bool := le b a.

(** [n / d / 2^s] as a fraction. *)
Definition scale (n d s : Z) : Z * Z :=
  if 0 <=? s then (n, d * 2 ^ s) else (n * 2 ^ (- s), d).

(** The integer nearest to [a / b], the even one of two that are equally
    near ([0 <= a], [0 < b]). *)
Definition rne (a b : Z) : Z :=
  let q := a / b in
  let r := a mod b in
  match 2 * r ?= b with
  | Lt => q
  | Gt => q + 1
  | Eq => if Z.even q then q else q + 1
  end.

(** The binary exponent of [n / d]: the [e] with [2^e <= n / d < 2^(e+1)]
    ([0 < n], [0 < d]). *)
Definition exponent (n d : Z) : Z :=
  let k := Z.log2 n - Z.log2 d in
  let '(n1, d1) := scale n d k in
  if d1 <=? n1 then k else k - 1.

(** The double nearest to [n / d > 0]: 53 significant bits, exponents from
    -1022 (below it the spacing stays [2^-1074]) to 1023 (beyond it the
    result is the infinity). *)
Definition round_pos (n d : Z) : number :=
  let s := Z.max (exponent n d) (-1022) - 52 in
  let '(n2, d2) := scale n d s in
  let m := rne n2 d2 in
  if 0 <=? s then
    if 2 ^ 1024 <=? m * 2 ^ s then PosInf else Fin (inject_Z (m * 2 ^ s))
  else Fin (Qred (Qmake m (Z.to_pos (2 ^ (- s))))).

(** [- a] *)
Definition neg (a : number) : number :=
  match a with
  | Fin q => Fin (- q)
  | NaN => NaN
  | PosInf => NegInf
  | NegInf => PosInf
  end.

(** The double nearest to the rational [q] (round to nearest, ties to even). *)
Definition round64 (q : Q) : number :=
  match Qnum q with
  | 0 => Fin 0
  | Z.pos p => round_pos (Z.pos p) (Z.pos (Qden q))
  | Z.neg p => neg (round_pos (Z.pos p) (Z.pos (Qden q)))
  end.

(** [a + b] *)
Definition add (a b : number) : number :=
  match a, b with
  | NaN, _ | _, NaN => NaN
  | Fin x, Fin y => round64 (x + y)
  | PosInf, NegInf | NegInf, PosInf => NaN
  | PosInf, _ | _, PosInf => PosInf
  | NegInf, _ | _, NegInf => NegInf
  end.

Definition of_Z (z : Z) : number := Fin (inject_Z z).

Definition is_nan (a : number) : bool :=
  match a with NaN => true | _ => false end.

End JsNumber.
Export JsNumber.

(** ** OPC UA status codes and data types used by the source *)

Inductive StatusCode : Type :=
| Good
| BadOutOfRange.

Inductive DataType : Type :=
| DtBoolean | DtInt32 | DtUInt16 | DtDouble | DtString
| DtDateTime | DtLocalizedText | DtNodeId | DtExtensionObject.

(** Two data types are the same. *)
Definition same_type (a b : DataType) : bool :=
  match a, b with
  | DtBoolean, DtBoolean | DtInt32, DtInt32 | DtUInt16, DtUInt16
  | DtDouble, DtDouble | DtString, DtString | DtDateTime, DtDateTime
  | DtLocalizedText, DtLocalizedText | DtNodeId, DtNodeId
  | DtExtensionObject, DtExtensionObject => true
  | _, _ => false
  end.

(** A node identifier [ns=<namespace index>;i=<numeric identifier>]. *)
Definition NodeId : Type := (Z * Z)%type.

(** ** What a timer handler does to the outside world

    Every handler of the two logic files is modelled as a function from the
    state it closes over to the new state and the list of calls it makes on
    the address space and on the event notifiers, in program order. *)

Record Condition : Type := mkCondition {
  severity : Z;          (* cond.severity, UInt16 *)
  message  : string;     (* cond.message, the text of the LocalizedText *)
  retain   : bool;       (* cond.retain *)
  time     : Z           (* cond.time, the clock reading of [new Date()] *)
}.

(** The payload of [myEvent.raiseEvent(demoEvent, eventData)].  The message is
    the template literal [`Severity at: ${count}`]; the interpolated number is
    kept as it is, its decimal rendering is not modelled.  The severity is
    the integer that the Int32 Variant built from [count] holds. *)
Record RaiseEventData : Type := mkEventData {
  ev_message_count : number;
  ev_severity      : Z
}.

Inductive Effect : Type :=
| FindNode (id : NodeId)                                  (* addressSpace.findNode *)
| RaiseEvent (data : RaiseEventData)                      (* myEvent.raiseEvent *)
| RaiseConditionEvent (snap : Condition) (renew : bool).  (* cond.raiseConditionEvent *)

Definition is_FindNode (e : Effect) : bool :=
  match e with FindNode _ => true | _ => false end.

(** The identifiers a handler resolved through the accessor during one run. *)
Definition resolutions (tr : list Effect) : list Effect := List.filter is_FindNode tr.

(** ** createOwnServerAddressspaceLogic *)
Module OwnServer.

(** The limit alarm as [instantiateNonExclusiveLimitAlarm] is given it. *)
Record LimitAlarm : Type := mkAlarm {
  highHighLimit : Z;
  highLimit     : Z;
  lowLimit      : Z;
  lowLowLimit   : Z;
  alarm_retain  : option bool   (* [None]: not set by the source yet *)
}.

(** The variables the closures of the function share, and the two condition
    objects whose handles it keeps. *)
Record State : Type := mkState {
  count   : number;       (* let count: number = 100 *)
  myValue : Z;            (* let myValue = 25 *)
  cond    : Condition;    (* const cond = namespace.instantiateCondition(...) *)
  alarm   : LimitAlarm    (* const alarm = namespace.instantiateNonExclusiveLimitAlarm(...) *)
}.

Definition with_count (c : number) (s : State) : State :=
  mkState c (myValue s) (cond s) (alarm s).
Definition with_myValue (v : Z) (s : State) : State :=
  mkState (count s) v (cond s) (alarm s).
Definition with_cond (c : Condition) (s : State) : State :=
  mkState (count s) (myValue s) c (alarm s).

(** *** The event severity counter (timer of 60000 ms) *)

Definition count_step    : number := of_Z 50.
Definition count_ceiling : number := of_Z 1000.
Definition count_floor   : number := of_Z 100.

Definition count_next (c : number) : number :=
  let c := add c count_step in
  if gt c count_ceiling then count_floor else c.

(** The handler.  [int32] stands for the construction of the Int32 Variant,
    [new Variant({ value: count, dataType: DataType.Int32 })], which is the
    node-opcua library's and not under src/: the integer the Variant holds,
    or [None] when the constructor throws.  The counter is assigned before
    the Variant is built; when the constructor throws the handler ends there
    and no event is raised. *)
Definition count_tick (int32 : number -> option Z) (s : State) : State * list Effect :=
  let c := count_next (count s) in
  (with_count c s,
   match int32 c with
   | Some sev => [RaiseEvent (mkEventData c sev)]
   | None => []
   end).

(** The counter after [n] ticks. *)
Fixpoint count_run (n : nat) (c : number) : number :=
  match n with
  | O => c
  | S k => count_next (count_run k c)
  end.

(** [c] lies in [[floor, ceiling]]. *)
Definition in_band (c : number) : Prop :=
  le count_floor c = true /\ le c count_ceiling = true.

(** *** MySeverity: a variable bound to a getter and a setter *)

Record Variant : Type := mkVariant { dataType : DataType; value : number }.

Record ValueBinding : Type := mkBinding {
  declared : DataType;   (* the [dataType] option of [namespace.addVariable] *)
  get : State -> Variant;
  set : option (Variant -> State -> StatusCode * State)
}.

Definition mySeverity_get (s : State) : Variant := mkVariant DtDouble (count s).

Definition mySeverity_set (variant : Variant) (s : State) : StatusCode * State :=
  if gt (value variant) (of_Z 1000) || lt (value variant) (of_Z 100)
  then (BadOutOfRange, s)
  else (Good, with_count (value variant) s).

Definition mySeverity : ValueBinding := mkBinding DtDouble mySeverity_get (Some mySeverity_set).

(** The declared range of MySeverity ("Value must be between 1000 and 100"). *)
Definition mySeverity_min : number := of_Z 100.
Definition mySeverity_max : number := of_Z 1000.

(** [w] is at or within the bounds. *)
Definition within_range (w : number) : Prop :=
  le mySeverity_min w = true /\ le w mySeverity_max = true.

(** [w] is outside the bounds: below the lower or above the upper one. *)
Definition outside_range (w : number) : Prop :=
  lt w mySeverity_min = true \/ gt w mySeverity_max = true.

(** *** MyVar: a variable bound to a getter only, and its ramp (timer of 1000 ms) *)

Definition myVar_get (s : State) : Variant := mkVariant DtDouble (of_Z (myValue s)).

Definition myVar : ValueBinding := mkBinding DtDouble myVar_get None.

Definition myValue_next (v : Z) : Z :=
  let v := v + 1 in
  if v >=? 60 then -25 else v.

Definition myValue_tick (s : State) : State * list Effect :=
  (with_myValue (myValue_next (myValue s)) s, []).

(** Modelled from the spec: the state after the write service, which is the
    node-opcua library's and not under src/, has handled an external write to
    a bound variable.  The bound setter, when there is one, is the only code
    of the source that runs, and the service calls it only with a variant of
    the data type the variable is declared with (a data-type tag checked at
    the store boundary, spec 9); with a binding that has no setter the value
    behind the getter is left as it was (a variable with a computed getter is
    read-only for external writers, spec 4.1).  The status that the service
    itself answers, for a variant of another type or a variable without
    setter, is the library's and is not modelled. *)
Definition written (b : ValueBinding) (v : Variant) (s : State) : State :=
  match set b with
  | Some f => if same_type (declared b) (dataType v) then snd (f v s) else s
  | None => s
  end.

Definition readValue (b : ValueBinding) (s : State) : Variant := get b s.

(** *** MyCondition (timer of 15000 ms) *)

Definition good_text : string := "MyCondition is Good!".
Definition bad_text  : string := "MyCondition is Bad!".

(** The four [setValueFromSource] calls that follow [instantiateCondition];
    [now] is the clock reading of [new Date()]. *)
Definition createCondition (now : Z) : Condition :=
  mkCondition 150 good_text true now.

Definition cond_next (now : Z) (c : Condition) : Condition :=
  if String.eqb (message c) good_text
  then mkCondition 800 bad_text (retain c) now
  else mkCondition 150 good_text (retain c) now.

Definition cond_tick (now : Z) (s : State) : State * list Effect :=
  let c := cond_next now (cond s) in
  (with_cond c s, [RaiseConditionEvent c true]).

(** The logical state of the condition is what the handler itself tests. *)
Inductive CondState : Type := CGood | CBad.

Definition cond_state (c : Condition) : CondState :=
  if String.eqb (message c) good_text then CGood else CBad.

Definition flip (st : CondState) : CondState :=
  match st with CGood => CBad | CBad => CGood end.

(** The condition after the ticks whose clock readings are [clock 0],
    [clock 1], ... , [clock (n-1)]. *)
Fixpoint cond_run (clock : nat -> Z) (n : nat) (c : Condition) : Condition :=
  match n with
  | O => c
  | S k => cond_next (clock k) (cond_run clock k c)
  end.

(** *** The limit alarm on MyVar *)

Definition instantiateNonExclusiveLimitAlarm : LimitAlarm :=
  mkAlarm 50 40 20 (-5) None.

Definition alarm_set_retain (b : bool) (a : LimitAlarm) : LimitAlarm :=
  mkAlarm (highHighLimit a) (highLimit a) (lowLimit a) (lowLowLimit a) (Some b).

(** *** The state the function leaves behind, and what can happen to it *)

Definition initial (now : Z) : State :=
  mkState (of_Z 100) 25 (createCondition now)
          (alarm_set_retain true instantiateNonExclusiveLimitAlarm).

Inductive Stimulus : Type :=
| TickCount
| TickMyValue
| TickCondition (now : Z)
| WriteMySeverity (v : Variant)
| WriteMyVar (v : Variant).

Definition step (e : Stimulus) (s : State) : State :=
  match e with
  | TickCount => with_count (count_next (count s)) s   (* the state [count_tick] leaves *)
  | TickMyValue => fst (myValue_tick s)
  | TickCondition now => fst (cond_tick now s)
  | WriteMySeverity v => written mySeverity v s
  | WriteMyVar v => written myVar v s
  end.

Definition run (es : list Stimulus) (s : State) : State :=
  fold_left (fun s e => step e s) es s.

(** The five bands of a limit alarm. *)
Inductive Band : Type := LowLow | Low | Normal | High | HighHigh.

(** Modelled from the spec: the band function of the limit-alarm evaluator
    (spec 4.5).  The evaluator itself is the alarm implementation of the
    node-opcua library, which is not under src/; the source only hands it the
    four limits and the input node. *)
Definition classify (value lowlow low high highhigh : Z) : Band :=
  if value <? lowlow then LowLow
  else if value <? low then Low
  else if value <=? high then Normal
  else if value <=? highhigh then High
  else HighHigh.

Definition alarm_band (a : LimitAlarm) (value : Z) : Band :=
  classify value (lowLowLimit a) (lowLimit a) (highLimit a) (highHighLimit a).

(** *** Runs of the timers *)

(** The ramp after [n] ticks. *)
Fixpoint myValue_run (n : nat) (v : Z) : Z :=
  match n with
  | O => v
  | S k => myValue_next (myValue_run k v)
  end.

(** What the handler of a stimulus emits; the two write services emit nothing. *)
Definition emitted (int32 : number -> option Z) (e : Stimulus) (s : State)
  : list Effect :=
  match e with
  | TickCount => snd (count_tick int32 s)
  | TickMyValue => snd (myValue_tick s)
  | TickCondition now => snd (cond_tick now s)
  | WriteMySeverity _ | WriteMyVar _ => []
  end.

(** Everything emitted along a run, in order. *)
Fixpoint run_emitted (int32 : number -> option Z) (es : list Stimulus) (s : State)
  : list Effect :=
  match es with
  | [] => []
  | e :: es' => emitted int32 e s ++ run_emitted int32 es' (step e s)
  end.

(** The clock readings of the condition ticks of a run, in order. *)
Fixpoint condition_clock (es : list Stimulus) : list Z :=
  match es with
  | [] => []
  | TickCondition now :: es' => now :: condition_clock es'
  | _ :: es' => condition_clock es'
  end.

(** The number of ramp ticks of a run. *)
Fixpoint ramp_ticks (es : list Stimulus) : nat :=
  match es with
  | [] => O
  | TickMyValue :: es' => S (ramp_ticks es')
  | _ :: es' => ramp_ticks es'
  end.

(** The condition after ticks at the given clock readings. *)
Definition cond_after (nows : list Z) (c : Condition) : Condition :=
  fold_left (fun c now => cond_next now c) nows c.

(** Message and severity of a condition agree: the good text with 150 or the
    bad text with 800. *)
Definition consistent (c : Condition) : Prop :=
  (message c = good_text /\ severity c = 150) \/
  (message c = bad_text /\ severity c = 800).

End OwnServer.

(** ** createShowCaseMachineToolLogic *)
Module MachineTool.

Inductive Value : Type :=
| VNull
| VNumber (n : number)
| VString (s : string)
| VLocalizedText (text : string)     (* coerceLocalizedText(text) *)
| VNodeId (id : NodeId)              (* coerceNodeId(i) is [ns=0;i=<i>] *)
| VRange (low high : number).        (* the Range extension object (ns=0;i=884) *)

Record Variant : Type := mkVariant { dataType : DataType; value : Value }.

(** What the handlers close over: the counter [override] and the address
    space: for every variable node it holds, the built-in data type behind
    the data type the node is declared with (Int32 for an enumeration) and
    the value the node holds.  The nodes that the handlers name are declared
    with a concrete data type; a node declared with the abstract
    BaseDataType has no place in this map.  Only the FeedOverride timer
    assigns [override], from 50 in steps of 5: it is an integer, and on such
    integers the sums of the source are exact. *)
Record World : Type := mkWorld {
  override : Z;                       (* let override = 50 *)
  nodes    : gmap NodeId Variant      (* addressSpace *)
}.

(** A handler either returns or throws (a method called on [null], or a
    value that the library refuses); the world it leaves behind and the
    calls it made are kept in both cases. *)
Inductive Result (A : Type) : Type :=
| Ok (a : A)
| Throw.
Arguments Ok {A} a.
Arguments Throw {A}.

Definition M (A : Type) : Type := World -> Result A * World * list Effect.

Definition ret {A} (a : A) : M A := fun w => (Ok a, w, []).

Definition bind {A B} (m : M A) (k : A -> M B) : M B :=
  fun w => match m w with
           | (Ok a, w', tr) =>
               match k a w' with
               | (r, w'', tr') => (r, w'', tr ++ tr')
               end
           | (Throw, w', tr) => (Throw, w', tr)
           end.

Notation "'let!' x ':=' m 'in' k" := (bind m (fun x => k))
  (at level 10, x name, m at level 100, k at level 200).
Notation "'do!' m 'in' k" := (bind m (fun _ => k))
  (at level 10, m at level 100, k at level 200).

(** [addressSpace.findNode(id)]: the handle of the node, or [null]. *)
Definition findNode (id : NodeId) : M (option NodeId) :=
  fun w =>
    (Ok (match nodes w !! id with Some _ => Some id | None => None end),
     w, [FindNode id]).

(** [setValueFromSource(v)] on the node [id]: the library (node-opcua, not
    under src/) throws when the data type of the variant is not the data
    type of the node ("expected dataType is ..., actual ..."); otherwise
    the node holds the value from then on. *)
Definition store (id : NodeId) (v : Variant) : M unit :=
  fun w =>
    match nodes w !! id with
    | Some old =>
        if same_type (dataType old) (dataType v)
        then (Ok tt, mkWorld (override w) (<[id := v]> (nodes w)), [])
        else (Throw, w, [])
    | None => (Throw, w, [])
    end.

(** [node.setValueFromSource(v)]: on [null] the call throws. *)
Definition setValueFromSource (node : option NodeId) (v : Variant) : M unit :=
  fun w =>
    match node with
    | Some id => store id v w
    | None => (Throw, w, [])
    end.

(** [node?.setValueFromSource(v)]: on [null] nothing happens. *)
Definition setValueFromSource_opt (node : option NodeId) (v : Variant) : M unit :=
  fun w =>
    match node with
    | Some id => store id v w
    | None => (Ok tt, w, [])
    end.

(** [node?.readValue().value.value.text]: [None] stands for [undefined]; the
    property access on a [null] value throws. *)
Definition readText_opt (node : option NodeId) : M (option string) :=
  fun w =>
    match node with
    | None => (Ok None, w, [])
    | Some id =>
        match value <$> nodes w !! id with
        | Some (VLocalizedText t) => (Ok (Some t), w, [])
        | Some VNull | None => (Throw, w, [])
        | Some _ => (Ok None, w, [])
        end
    end.

Definition set_override (v : Z) : M unit :=
  fun w => (Ok tt, mkWorld v (nodes w), []).

Definition get_override : M Z := fun w => (Ok (override w), w, []).

(** [text === s] *)
Definition text_is (text : option string) (s : string) : bool :=
  match text with
  | Some t => String.eqb t s
  | None => false
  end.

Section Handlers.

(** [addressSpace.getNamespaceIndex("http://example.com/ShowcaseMachineTool/")] *)
Variable idx : Z.

(** changes CurrentState each 10000 msec from Running to Ended *)
Definition currentState_tick : M unit :=
  let! state := findNode (idx, 55188) in
  let! stateNumber := findNode (idx, 55190) in
  let! text := readText_opt state in
  if text_is text "Running" then
    do! setValueFromSource_opt state (mkVariant DtLocalizedText (VLocalizedText "Ended")) in
    setValueFromSource stateNumber (mkVariant DtNodeId (VNodeId (0, 2)))
  else
    do! setValueFromSource_opt state (mkVariant DtLocalizedText (VLocalizedText "Running")) in
    setValueFromSource stateNumber (mkVariant DtNodeId (VNodeId (0, 1))).

(** changes MachineryItemState each 10000 msec from Executing to NotExecuting *)
Definition machineryItemState_tick : M unit :=
  let! state := findNode (idx, 6011) in
  let! stateNumber := findNode (idx, 6012) in
  let! text := readText_opt state in
  if text_is text "Executing" then
    do! setValueFromSource_opt state (mkVariant DtLocalizedText (VLocalizedText "NotExecuting")) in
    setValueFromSource stateNumber (mkVariant DtNodeId (VNodeId (0, 2)))
  else
    do! setValueFromSource_opt state (mkVariant DtLocalizedText (VLocalizedText "Executing")) in
    setValueFromSource stateNumber (mkVariant DtNodeId (VNodeId (0, 1))).

(** increments the value of FeedOverride by 5 each sec *)
Definition override_next (v : Z) : Z :=
  let v := v + 5 in
  if v >? 120 then 50 else v.

Definition feedOverride_id : NodeId := (idx, 55229).

Definition feedOverride_tick : M unit :=
  let! v := get_override in
  do! set_override (override_next v) in
  let! v := get_override in
  let! feedOverride := findNode feedOverride_id in
  setValueFromSource feedOverride (mkVariant DtDouble (VNumber (of_Z v))).

(** The world a tick of the FeedOverride generator leaves when the node is there. *)
Definition after_feedOverride_tick (w : World) : World :=
  mkWorld (override_next (override w))
          (<[feedOverride_id :=
               mkVariant DtDouble (VNumber (of_Z (override_next (override w))))]>
             (nodes w)).

End Handlers.

(** The common shape of the two state timers: the node [a] carries a text
    that is switched between [on] and [off], the node [b] the number of the
    state (1 with [on], 2 with [off]). *)
Definition toggle (a b : NodeId) (on off : string) : M unit :=
  let! state := findNode a in
  let! stateNumber := findNode b in
  let! text := readText_opt state in
  if text_is text on then
    do! setValueFromSource_opt state (mkVariant DtLocalizedText (VLocalizedText off)) in
    setValueFromSource stateNumber (mkVariant DtNodeId (VNodeId (0, 2)))
  else
    do! setValueFromSource_opt state (mkVariant DtLocalizedText (VLocalizedText on)) in
    setValueFromSource stateNumber (mkVariant DtNodeId (VNodeId (0, 1))).

(** [n] runs of a handler, one after the other.  The source catches no
    exception: after a throw the later runs do not take place. *)
Fixpoint ticks (h : M unit) (n : nat) : M unit :=
  match n with
  | O => ret tt
  | S k => do! ticks h k in h
  end.

(** The address space after [node?.setValueFromSource(v)] on what
    [findNode(id)] returned, when the call returns. *)
Definition set_if_present (id : NodeId) (v : Variant) (m : gmap NodeId Variant)
  : gmap NodeId Variant :=
  match m !! id with
  | Some _ => <[id := v]> m
  | None => m
  end.

(** [node?.setValueFromSource(v)] on what [findNode(id)] returned does not
    throw: there is no such node, or it has the data type of the variant. *)
Definition accepts (id : NodeId) (v : Variant) (m : gmap NodeId Variant) : bool :=
  match m !! id with
  | Some old => same_type (dataType old) (dataType v)
  | None => true
  end.

(** The node [id] exists and has the data type [dt]. *)
Definition has_type (id : NodeId) (dt : DataType) (m : gmap NodeId Variant) : Prop :=
  dataType <$> m !! id = Some dt.

(** The values of a list written one after the other, each to the node that
    [findNode] returns for its identifier and with [?.], up to the first
    one that the library refuses: whether none was refused, and the address
    space that is left. *)
Fixpoint write_all (vs : list (NodeId * Variant)) (m : gmap NodeId Variant)
  : bool * gmap NodeId Variant :=
  match vs with
  | [] => (true, m)
  | (id, v) :: vs' =>
      if accepts id v m then write_all vs' (set_if_present id v m) else (false, m)
  end.

(** What a state timer [h] on the state node [a] and the state-number node
    [b] does when a node is missing, of another data type, or empty. *)
Definition missing_node_cases (h : M unit) (a b : NodeId) (on off : string)
    (w : World) : Prop :=
  (* the state node carries a text, the number node cannot be resolved or is
     not of type NodeId: the text is switched, then the tick throws *)
  (forall t xb,
     nodes w !! a = Some (mkVariant DtLocalizedText (VLocalizedText t)) ->
     (nodes w !! b = None \/
      (nodes w !! b = Some xb /\ dataType xb <> DtNodeId)) ->
     h w = (Throw,
            mkWorld (override w)
              (<[a := mkVariant DtLocalizedText
                        (VLocalizedText (if String.eqb t on then off else on))]>
                 (nodes w)),
            [FindNode a; FindNode b])) /\
  (* only the state node is missing: the number is set to 1 *)
  (nodes w !! a = None -> has_type b DtNodeId (nodes w) ->
     h w = (Ok tt,
            mkWorld (override w) (<[b := mkVariant DtNodeId (VNodeId (0, 1))]> (nodes w)),
            [FindNode a; FindNode b])) /\
  (* the state node holds a null value: the tick throws, nothing changes *)
  (forall dt, nodes w !! a = Some (mkVariant dt VNull) ->
     h w = (Throw, w, [FindNode a; FindNode b])) /\
  (* both nodes are missing: the tick throws, nothing changes *)
  (nodes w !! a = None -> nodes w !! b = None ->
     h w = (Throw, w, [FindNode a; FindNode b])).

Section Startup.

Variable idx : Z.

(** The Range extension object built by
    [addressSpace.constructExtensionObject] from low 60 and high 100. *)
Definition spindleEURange : Value := VRange (of_Z 60) (of_Z 100).

(** The statements of [createShowCaseMachineToolLogic] outside the timers,
    in program order; the [setInterval] calls only register the handlers. *)
Definition createShowCaseMachineToolLogic : M unit :=
  let! activeProgramName := findNode (idx, 55186) in
  do! setValueFromSource_opt activeProgramName
        (mkVariant DtString (VString "Program_1")) in
  let! activeProgramNumberInList := findNode (idx, 55185) in
  do! setValueFromSource_opt activeProgramNumberInList
        (mkVariant DtUInt16 (VNumber (of_Z 1))) in
  let! productionActiveProgramStateCurrentState := findNode (idx, 55188) in
  do! setValueFromSource_opt productionActiveProgramStateCurrentState
        (mkVariant DtLocalizedText (VLocalizedText "Running")) in
  do! set_override 50 in
  let! spindleOverride := findNode (idx, 55238) in
  do! setValueFromSource_opt spindleOverride
        (mkVariant DtDouble (VNumber (of_Z 100))) in
  let! spindleOverrideRange := findNode (idx, 55240) in
  do! setValueFromSource_opt spindleOverrideRange
        (mkVariant DtExtensionObject spindleEURange) in
  let! channel1 := findNode (idx, 55233) in
  setValueFromSource channel1 (mkVariant DtInt32 (VNumber (of_Z 1))).

(** The values the function writes, by node. *)
Definition startup_values : list (NodeId * Variant) :=
  [ ((idx, 55186), mkVariant DtString (VString "Program_1"));
    ((idx, 55185), mkVariant DtUInt16 (VNumber (of_Z 1)));
    ((idx, 55188), mkVariant DtLocalizedText (VLocalizedText "Running"));
    ((idx, 55238), mkVariant DtDouble (VNumber (of_Z 100)));
    ((idx, 55240), mkVariant DtExtensionObject spindleEURange);
    ((idx, 55233), mkVariant DtInt32 (VNumber (of_Z 1))) ].

End Startup.

(** What a handler resolved through the accessor during one run started in [w]. *)
Definition resolved_by (h : M unit) (w : World) : list Effect :=
  resolutions (snd (h w)).

(** An external read of a stored variable. *)
Definition readValue (id : NodeId) (w : World) : option Variant := nodes w !! id.

(** Modelled from the spec: the Variable Store's [write] on a stored variable
    (spec 4.1), as the address-space service of the node-opcua library, which
    is not under src/, offers it to external writers.  None of the nodes of
    this file is given a range by the source, so a value of the data type of
    the node is stored.  [None]: the value is not stored (no such node, or
    another data type); the status of such a write is the library's and is
    not modelled. *)
Definition writeValue (id : NodeId) (v : Variant) (w : World) : option StatusCode * World :=
  match nodes w !! id with
  | Some old =>
      if same_type (dataType old) (dataType v)
      then (Some Good, mkWorld (override w) (<[id := v]> (nodes w)))
      else (None, w)
  | None => (None, w)
  end.

End MachineTool.

(** ** src/user.ts *)
Module User.

(** An entry of [user.json] (the declaration of [User] in ./utils/userfile is
    not under src/; these are the three fields the source reads). *)
Record User : Type := mkUser {
  username : string;
  password : string;     (* the bcrypt hash *)
  roles    : string
}.

(** What a reference may hold: [null], [undefined], or an object. *)
Inductive JsRef (A : Type) : Type :=
| JsNull
| JsUndefined
| JsObject (a : A).
Arguments JsNull {A}.
Arguments JsUndefined {A}.
Arguments JsObject {A} a.

(** [if (r)]: an object is truthy, [null] and [undefined] are not. *)
Definition truthy {A} (r : JsRef A) : bool :=
  match r with JsObject _ => true | _ => false end.

(** A line written through ./utils/log. *)
Inductive LogLine : Type :=
| green (text : string)
| red (text : string).

(** [user[0]] *)
Definition first {A} (l : list A) : JsRef A :=
  match l with
  | [] => JsUndefined
  | a :: _ => JsObject a
  end.

Definition getUser (name : string) (users : list User) : JsRef User * list LogLine :=
  let user := List.filter (fun item => String.eqb (username item) name) users in
  if (1 <? length user)%nat
  then (JsNull,
        [red (" Found " +:+ pretty (length user) +:+ " Users with the Name " +:+ name +:+ " ")])
  else (first user, []).

(** One invocation of [callback(err, isAuthorized)]. *)
Record CallbackArgs : Type := mkArgs {
  err          : option string;   (* [None] is [null] *)
  isAuthorized : option bool      (* [None] is [undefined] *)
}.

Section Login.

(** [userList], read from user.json when the module is loaded. *)
Variable userList : list User.

(** bcrypt's [compare(data, hash, cb)]: the arguments it hands to [cb], an
    error (or [None]) and a result (or [None] for [undefined]). *)
Variable compare : string -> string -> option string * option bool.

(** The invocations of [callback], in order, and the lines logged. *)
Definition isValidUserAsync (name pass : string) : list CallbackArgs * list LogLine :=
  let '(user, log) := getUser name userList in
  match user with
  | JsObject u =>
      let '(_, result) := compare pass (password u) in
      match result with
      | Some true =>
          ([mkArgs None (Some true)],
           log ++ [green (" User:'" +:+ username u +:+ "' logged in as '" +:+ roles u +:+ "'! ")])
      | _ =>
          ([mkArgs None (Some false)],
           log ++ [red (" User:'" +:+ username u +:+ "' rejected! ")])
      end
  | _ =>
      ([mkArgs None (Some false)], log ++ [red " User:unknown rejected! "])
  end.

End Login.

Section Roles.

Variable userList : list User.

(** [makeRoles] of node-opcua: the role node ids that a role string names. *)
Variable makeRoles : string -> list NodeId.

(** [r?.roles || ""]: [undefined] and the (falsy) empty string give [""]. *)
Definition roles_or_empty (r : JsRef User) : string :=
  match r with
  | JsObject u => if String.eqb (roles u) "" then "" else roles u
  | _ => ""
  end.

Definition getUserRoles (name : string) : list NodeId * list LogLine :=
  let '(user, log) := getUser name userList in
  (makeRoles (roles_or_empty user), log).

End Roles.

(** The entry [u] is the only one of [users] that carries [name]. *)
Definition only_entry (name : string) (users : list User) (u : User) : Prop :=
  exists l1 l2, users = l1 ++ u :: l2 /\ username u = name /\
    (forall x, In x l1 -> username x <> name) /\
    (forall x, In x l2 -> username x <> name).

End User.

(** * Properties *)

(** ** Comparisons of JS numbers *)
Section NumberFacts.

Lemma Qltb_lt x y : Qltb x y = true <-> (x < y)%Q.
Proof.
  unfold Qltb. rewrite negb_true_iff, <- not_true_iff_false, Qle_bool_iff.
  split; [apply Qnot_le_lt | apply Qlt_not_le].
Qed.

Lemma Qltb_ge x y : Qltb x y = false <-> (y <= x)%Q.
Proof.
  unfold Qltb. rewrite negb_false_iff. apply Qle_bool_iff.
Qed.

Lemma le_Fin x y : le (Fin x) (Fin y) = true <-> (x <= y)%Q.
Proof. apply Qle_bool_iff. Qed.

Lemma lt_Fin x y : lt (Fin x) (Fin y) = true <-> (x < y)%Q.
Proof. apply Qltb_lt. Qed.

(** On operands that are ordered, [a <= b] excludes [b < a]. *)
Lemma le_not_gt a b : le a b = true -> gt a b = false.
Proof.
  unfold gt. destruct a, b; simpl; try discriminate; try reflexivity.
  intros H. apply Qltb_ge. now apply Qle_bool_iff.
Qed.

(** Without a NaN, [a <= b] and [b < a] are complementary. *)
Lemma le_or_gt a b :
  is_nan a = false -> is_nan b = false -> le a b = negb (gt a b).
Proof.
  unfold gt. destruct a, b; simpl; try discriminate; try reflexivity.
  intros _ _. unfold Qltb. now rewrite negb_involutive.
Qed.

(** *** Rounding to the nearest double *)

Lemma scale_neg n d s : s < 0 -> scale n d s = (n * 2 ^ (- s), d).
Proof. intros H. unfold scale. destruct (Z.leb_spec 0 s); [lia | reflexivity]. Qed.

Lemma scale_nonneg n d s : 0 <= s -> scale n d s = (n, d * 2 ^ s).
Proof. intros H. unfold scale. destruct (Z.leb_spec 0 s); [reflexivity | lia]. Qed.

Lemma exponent_le n d : exponent n d <= Z.log2 n - Z.log2 d.
Proof.
  unfold exponent. destruct (scale n d _) as [n1 d1].
  destruct (d1 <=? n1); lia.
Qed.

Lemma rne_floor a b : 0 < b -> a / b <= rne a b.
Proof.
  intros Hb. unfold rne. destruct (2 * (a mod b) ?= b); [|lia|lia].
  destruct (Z.even (a / b)); lia.
Qed.

Lemma rne_exact a : rne a 1 = a.
Proof. unfold rne. rewrite Z.div_1_r, Z.mod_1_r. reflexivity. Qed.

(** Below [2^52] the spacing of the doubles is a negative power of two. *)
Lemma round_pos_neg_scale n d :
  Z.max (exponent n d) (-1022) - 52 < 0 ->
  round_pos n d
  = Fin (Qred (Qmake (rne (n * 2 ^ (52 - Z.max (exponent n d) (-1022))) d)
                     (Z.to_pos (2 ^ (52 - Z.max (exponent n d) (-1022)))))).
Proof.
  intros Hs. unfold round_pos. rewrite (scale_neg _ _ _ Hs).
  destruct (Z.leb_spec 0 (Z.max (exponent n d) (-1022) - 52)); [lia|].
  replace (- (Z.max (exponent n d) (-1022) - 52))
    with (52 - Z.max (exponent n d) (-1022)) by lia.
  reflexivity.
Qed.

Lemma exponent_int z : 0 < z -> exponent z 1 = Z.log2 z.
Proof.
  intros Hz. unfold exponent. change (Z.log2 1) with 0. rewrite Z.sub_0_r.
  rewrite scale_nonneg by apply Z.log2_nonneg.
  rewrite Z.mul_1_l.
  destruct (Z.leb_spec (2 ^ Z.log2 z) z) as [_|H]; [reflexivity|].
  pose proof (Z.log2_spec z Hz). lia.
Qed.

Lemma Qred_inject_Z (a : Z) : Qred (inject_Z a) = inject_Z a.
Proof.
  unfold Qred, inject_Z.
  pose proof (Z.ggcd_gcd a 1) as Hg.
  pose proof (Z.ggcd_correct_divisors a 1) as Hd.
  destruct (Z.ggcd a 1) as [g [aa bb]]. cbn [fst snd] in *.
  rewrite Z.gcd_1_r in Hg. subst g. destruct Hd as [Ha Hb].
  rewrite Z.mul_1_l in Ha, Hb. now subst aa bb.
Qed.

Lemma Qred_scaled (z P : Z) :
  0 < P -> Qred (Qmake (z * P) (Z.to_pos P)) = inject_Z z.
Proof.
  intros HP.
  assert (E : Qmake (z * P) (Z.to_pos P) == inject_Z z).
  { unfold Qeq, inject_Z. cbn [Qnum Qden]. rewrite Z2Pos.id by exact HP. lia. }
  rewrite (Qred_complete _ _ E). apply Qred_inject_Z.
Qed.

(** A positive integer below [2^52] is a double: rounding leaves it. *)
Lemma round64_int z : 0 < z < 2 ^ 52 -> round64 (inject_Z z) = Fin (inject_Z z).
Proof.
  intros [Hz Hlt]. unfold round64. cbn [Qnum Qden inject_Z].
  destruct z as [|p|p]; try lia.
  assert (Hk : Z.log2 (Z.pos p) < 52) by (apply Z.log2_lt_pow2; lia).
  pose proof (Z.log2_nonneg (Z.pos p)) as Hk0.
  rewrite round_pos_neg_scale; rewrite exponent_int by lia; [|lia].
  rewrite Z.max_l by lia. rewrite rne_exact.
  f_equal. apply Qred_scaled. apply Z.pow_pos_nonneg; lia.
Qed.

(** Rounding does not go below an integer that the exact value reaches (for
    values below [2^40], where the integers are doubles). *)
Lemma round64_lower (q : Q) (lo hi : Z) :
  0 < lo -> hi < 2 ^ 40 ->
  (inject_Z lo <= q)%Q -> (q <= inject_Z hi)%Q ->
  le (Fin (inject_Z lo)) (round64 q) = true.
Proof.
  intros Hlo0 Hhi0 Hlo Hhi. destruct q as [n d].
  unfold Qle, inject_Z in Hlo, Hhi. cbn [Qnum Qden] in Hlo, Hhi.
  rewrite Z.mul_1_r in Hlo, Hhi.
  assert (Hn : 0 < n) by nia.
  unfold round64. cbn [Qnum Qden]. destruct n as [|p|p]; try lia.
  set (n := Z.pos p) in *. set (D := Z.pos d) in *.
  assert (HD : 0 < D) by (subst D; lia).
  assert (Hk : Z.log2 n - Z.log2 D <= 40).
  { pose proof (Z.log2_spec n Hn) as [Hn1 _].
    pose proof (Z.log2_spec D HD) as [_ Hd2].
    pose proof (Z.log2_nonneg D) as Hd0.
    destruct (Z.le_gt_cases (Z.log2 n - Z.log2 D) 40) as [|Hgt]; [assumption|exfalso].
    assert (H : 2 ^ (Z.log2 D + 41) <= 2 ^ Z.log2 n) by (apply Z.pow_le_mono_r; lia).
    rewrite Z.pow_add_r in H by lia. rewrite Z.pow_succ_r in Hd2 by lia.
    change (2 ^ 41) with (2 ^ 40 * 2) in H.
    nia. }
  pose proof (exponent_le n D) as He.
  rewrite round_pos_neg_scale by lia.
  set (t := 52 - Z.max (exponent n D) (-1022)).
  assert (Ht : 0 < t) by (subst t; lia).
  assert (HP : 0 < 2 ^ t) by (apply Z.pow_pos_nonneg; lia).
  cbn [le]. apply Qle_bool_iff. rewrite Qred_correct.
  unfold Qle. cbn [Qnum Qden inject_Z]. rewrite Z2Pos.id by exact HP.
  rewrite Z.mul_1_r.
  pose proof (rne_floor (n * 2 ^ t) D HD) as Hr.
  assert (lo * 2 ^ t <= n * 2 ^ t / D).
  { apply Z.div_le_lower_bound; [exact HD|]. nia. }
  lia.
Qed.

(** The sum of two integers is exact as long as it is a positive integer
    below [2^52]. *)
Lemma add_of_Z (a b : Z) :
  0 < a + b < 2 ^ 52 -> add (of_Z a) (of_Z b) = of_Z (a + b).
Proof.
  intros H. unfold add, of_Z. rewrite <- inject_Z_plus. now apply round64_int.
Qed.

End NumberFacts.

(** ** Data types *)

Lemma same_type_eq (a b : DataType) : same_type a b = true <-> a = b.
Proof. destruct a, b; cbn; split; intros H; try reflexivity; discriminate. Qed.

(** ** The own address-space logic *)
Section OwnServerFacts.

Import OwnServer.

(** The construction of the Int32 Variant (node-opcua, not under src/). *)
Variable int32 : number -> option Z.

Lemma gt_Fin x y : gt (Fin x) (Fin y) = true <-> (y < x)%Q.
Proof. unfold gt. apply lt_Fin. Qed.

Lemma gt_Fin_false x y : gt (Fin x) (Fin y) = false <-> (x <= y)%Q.
Proof. unfold gt. simpl. apply Qltb_ge. Qed.

(** Only a finite number lies between two finite bounds. *)
Lemma between_Fin lo hi c :
  le (Fin lo) c = true -> le c (Fin hi) = true ->
  exists q, c = Fin q /\ (lo <= q <= hi)%Q.
Proof.
  destruct c as [q| | |]; simpl; try discriminate.
  intros H1 H2. exists q. split; [reflexivity|].
  split; now apply Qle_bool_iff.
Qed.

(** The setter stores a NaN: it is neither above 1000 nor below 100. *)
Lemma mySeverity_set_nan (s : State) :
  mySeverity_set (mkVariant DtDouble NaN) s = (Good, with_count NaN s).
Proof. reflexivity. Qed.

(** A number that is not a NaN is either outside or within the range. *)
Lemma outside_or_within (w : number) :
  is_nan w = false -> outside_range w \/ within_range w.
Proof.
  intros Hn. unfold outside_range, within_range.
  destruct (lt w mySeverity_min) eqn:Hlo; [left; now left|].
  destruct (gt w mySeverity_max) eqn:Hhi; [left; now right|].
  right. split.
  - assert (E := le_or_gt mySeverity_min w eq_refl Hn).
    unfold gt in E. rewrite Hlo in E. exact E.
  - assert (E := le_or_gt w mySeverity_max Hn eq_refl).
    rewrite Hhi in E. exact E.
Qed.

Lemma mySeverity_set_within (v : Variant) (s : State) :
  within_range (value v) -> mySeverity_set v s = (Good, with_count (value v) s).
Proof.
  intros [Hlo Hhi]. unfold mySeverity_set.
  apply le_not_gt in Hlo, Hhi.
  unfold mySeverity_max in Hhi. unfold mySeverity_min, gt in Hlo.
  now rewrite Hhi, Hlo.
Qed.

Lemma mySeverity_set_outside (v : Variant) (s : State) :
  outside_range (value v) -> mySeverity_set v s = (BadOutOfRange, s).
Proof.
  intros [Hlo | Hhi]; unfold mySeverity_set.
  - unfold mySeverity_min in Hlo. now rewrite Hlo, orb_true_r.
  - unfold mySeverity_max in Hhi. now rewrite Hhi.
Qed.

(** On every value that is a number (not a NaN) the setter keeps the range:
    a value that is not within [100, 1000] is answered with BadOutOfRange and
    leaves the state as it was, a value within is answered with Good and
    stored. *)
Lemma mySeverity_set_ordered (v : Variant) (s : State) :
  is_nan (value v) = false ->
  (~ within_range (value v) -> mySeverity_set v s = (BadOutOfRange, s)) /\
  (within_range (value v) -> mySeverity_set v s = (Good, with_count (value v) s)).
Proof.
  intros Hn. split.
  - intros Hw. apply mySeverity_set_outside.
    destruct (outside_or_within (value v) Hn); [assumption | contradiction].
  - apply mySeverity_set_within.
Qed.

(** C1, at the write that breaks it: a NaN is not within [100, 1000], yet
    the setter answers Good for it and stores it, so the stored value after
    the call is not the value before the call (both comparisons of the
    setter are false for a NaN, which sends it to the accepting branch). *)
Theorem mySeverity_accepts_nan :
  ~ within_range NaN /\
  mySeverity_set (mkVariant DtDouble NaN) (initial 0)
    = (Good, with_count NaN (initial 0)) /\
  count (snd (mySeverity_set (mkVariant DtDouble NaN) (initial 0))) = NaN /\
  count (initial 0) = of_Z 100.
Proof.
  split; [intros [H _]; discriminate|]. repeat split.
Qed.

Lemma count_next_exceeds (c : number) :
  gt (add c (of_Z 50)) (of_Z 1000) = true -> count_next c = of_Z 100.
Proof.
  intros H. unfold count_next, count_step, count_ceiling, count_floor.
  now rewrite H.
Qed.

Lemma count_next_within (c : number) :
  gt (add c (of_Z 50)) (of_Z 1000) = false -> count_next c = add c (of_Z 50).
Proof.
  intros H. unfold count_next, count_step, count_ceiling, count_floor.
  now rewrite H.
Qed.

Lemma gt_of_Z (a b : Z) : gt (of_Z a) (of_Z b) = (a >? b).
Proof.
  unfold of_Z. destruct (Z.gtb_spec a b) as [H|H].
  - apply gt_Fin. rewrite <- Zlt_Qlt. lia.
  - apply gt_Fin_false. now rewrite <- Zle_Qle.
Qed.

(** On an integer the counter step is the integer sawtooth: the sum is exact. *)
Lemma count_next_of_Z (z : Z) :
  0 < z + 50 < 2 ^ 52 ->
  count_next (of_Z z) = of_Z (if z + 50 >? 1000 then 100 else z + 50).
Proof.
  intros Hz. unfold count_next, count_step, count_ceiling, count_floor.
  rewrite (add_of_Z z 50 Hz), gt_of_Z. destruct (z + 50 >? 1000); reflexivity.
Qed.

Lemma count_next_in_band (c : number) : in_band c -> in_band (count_next c).
Proof.
  intros [H1 H2].
  destruct (between_Fin _ _ _ H1 H2) as (q & -> & Hlo & Hhi).
  change (inject_Z 100) with 100%Q in Hlo. change (inject_Z 1000) with 1000%Q in Hhi.
  assert (Hr : le (of_Z 100) (add (Fin q) (of_Z 50)) = true).
  { unfold add, of_Z. apply (round64_lower _ 100 1050); [lia | reflexivity | |].
    - change (inject_Z 100) with 100%Q. change (inject_Z 50) with 50%Q. lra.
    - change (inject_Z 1050) with 1050%Q. change (inject_Z 50) with 50%Q. lra. }
  destruct (gt (add (Fin q) (of_Z 50)) (of_Z 1000)) eqn:Hgt.
  - rewrite (count_next_exceeds _ Hgt). split; reflexivity.
  - rewrite (count_next_within _ Hgt). split; [exact Hr|].
    unfold count_ceiling.
    rewrite (le_or_gt (add (Fin q) (of_Z 50)) (of_Z 1000)); [now rewrite Hgt| |reflexivity].
    destruct (add (Fin q) (of_Z 50)); try reflexivity. discriminate.
Qed.

(** The setter shares [count] with the timer: a value it accepts, unless it
    is a NaN, lies in the band. *)
Lemma step_count_in_band (e : Stimulus) (s : State) :
  (forall v, e = WriteMySeverity v -> is_nan (value v) = false) ->
  in_band (count s) -> in_band (count (step e s)).
Proof.
  intros He Hs. destruct e as [| |now|v|v]; cbn [step]; try exact Hs.
  - now apply count_next_in_band.
  - unfold written. cbn [set declared mySeverity].
    destruct (same_type DtDouble (dataType v)); [|exact Hs].
    unfold mySeverity_set.
    destruct (gt (value v) (of_Z 1000)) eqn:Hhi; [exact Hs|].
    destruct (lt (value v) (of_Z 100)) eqn:Hlo; [exact Hs|].
    cbn [orb snd with_count count].
    specialize (He v eq_refl). split.
    + unfold count_floor. rewrite (le_or_gt (of_Z 100) (value v) eq_refl He).
      unfold gt. now rewrite Hlo.
    + unfold count_ceiling. rewrite (le_or_gt (value v) (of_Z 1000) He eq_refl).
      now rewrite Hhi.
Qed.


(** A NaN that the setter has let in stays in the counter. *)
Lemma count_after_nan_write (now : Z) :
  count (run [WriteMySeverity (mkVariant DtDouble NaN); TickCount] (initial now)) = NaN.
Proof. reflexivity. Qed.

(** From 100 the eighteenth tick reaches the ceiling and the nineteenth is
    the reset to the floor. *)
Example count_run_18_19 (now : Z) :
  count_run 18 (count (initial now)) = of_Z 1000 /\
  count_run 19 (count (initial now)) = of_Z 100.
Proof. split; vm_compute; reflexivity. Qed.


End OwnServerFacts.


(** ** MyCondition *)
Section ConditionFacts.

Import OwnServer.

Lemma cond_next_flips (now : Z) (c : Condition) :
  cond_state (cond_next now c) = flip (cond_state c).
Proof.
  unfold cond_next, cond_state.
  destruct (String.eqb (message c) good_text); reflexivity.
Qed.

Lemma cond_next_from_good (now : Z) (c : Condition) :
  cond_state c = CGood ->
  cond_next now c = mkCondition 800 bad_text (retain c) now.
Proof.
  unfold cond_next, cond_state.
  destruct (String.eqb (message c) good_text); [reflexivity | discriminate].
Qed.

Lemma cond_next_from_bad (now : Z) (c : Condition) :
  cond_state c = CBad ->
  cond_next now c = mkCondition 150 good_text (retain c) now.
Proof.
  unfold cond_next, cond_state.
  destruct (String.eqb (message c) good_text); [discriminate | reflexivity].
Qed.

Lemma cond_next_retain (now : Z) (c : Condition) :
  retain (cond_next now c) = retain c.
Proof.
  unfold cond_next. destruct (String.eqb (message c) good_text); reflexivity.
Qed.

Lemma cond_next_time (now : Z) (c : Condition) : time (cond_next now c) = now.
Proof.
  unfold cond_next. destruct (String.eqb (message c) good_text); reflexivity.
Qed.

(** From any condition in the good state the states alternate. *)
Lemma cond_run_state (clock : nat -> Z) (c : Condition) (n : nat) :
  cond_state c = CGood ->
  cond_state (cond_run clock n c) = (if Nat.even n then CGood else CBad).
Proof.
  intros Hc. induction n as [|n IH]; [exact Hc|].
  cbn [cond_run]. rewrite cond_next_flips, IH, Nat.even_succ, <- Nat.negb_even.
  destruct (Nat.even n); reflexivity.
Qed.

(** The run from the created condition, tick by tick: state and severity
    depend on the parity of the number of ticks alone. *)
Lemma cond_run_parity (clock : nat -> Z) (t0 : Z) (n : nat) :
  cond_state (cond_run clock n (createCondition t0))
    = (if Nat.even n then CGood else CBad) /\
  severity (cond_run clock n (createCondition t0))
    = (if Nat.even n then 150 else 800).
Proof.
  induction n as [|n [IHs IHv]].
  - split; reflexivity.
  - cbn [cond_run]. rewrite Nat.even_succ, <- Nat.negb_even.
    destruct (Nat.even n); cbn [negb].
    + rewrite (cond_next_from_good _ _ IHs). split; reflexivity.
    + rewrite (cond_next_from_bad _ _ IHs). split; reflexivity.
Qed.

Lemma cond_run_retain (clock : nat -> Z) (n : nat) (c : Condition) :
  retain (cond_run clock n c) = retain c.
Proof.
  induction n as [|n IH]; [reflexivity|].
  cbn [cond_run]. now rewrite cond_next_retain.
Qed.

(** C2: every tick of the condition flips its state (out of Good into Bad,
    out of anything else into Good; no branch keeps the state) and stamps the
    clock reading of that tick; out of Good the severity becomes 800, out of
    Bad it becomes 150.  Started from a condition in state Good the states
    are Good, Bad, Good, Bad, ...; started from the created condition the
    severity is 150 in the Good and 800 in the Bad ones, it rises exactly on the ticks that go from Good to Bad and falls
    exactly on the ticks that go from Bad to Good. *)
Theorem condition_strict_alternation (clock : nat -> Z) (t0 : Z) :
  (forall now c, cond_state (cond_next now c) = flip (cond_state c)) /\
  (forall now c, time (cond_next now c) = now) /\
  (forall now c, cond_state c = CGood ->
     severity (cond_next now c) = 800 /\ message (cond_next now c) = bad_text) /\
  (forall now c, cond_state c = CBad ->
     severity (cond_next now c) = 150 /\ message (cond_next now c) = good_text) /\
  (forall c n, cond_state c = CGood ->
     cond_state (cond_run clock n c) = (if Nat.even n then CGood else CBad)) /\
  (forall n,
     cond_state (cond_run clock n (createCondition t0))
       = (if Nat.even n then CGood else CBad) /\
     severity (cond_run clock n (createCondition t0))
       = (if Nat.even n then 150 else 800)) /\
  (forall n,
     (severity (cond_run clock n (createCondition t0))
        < severity (cond_run clock (S n) (createCondition t0))
      <-> cond_state (cond_run clock n (createCondition t0)) = CGood /\
          cond_state (cond_run clock (S n) (createCondition t0)) = CBad) /\
     (severity (cond_run clock (S n) (createCondition t0))
        < severity (cond_run clock n (createCondition t0))
      <-> cond_state (cond_run clock n (createCondition t0)) = CBad /\
          cond_state (cond_run clock (S n) (createCondition t0)) = CGood)) /\
  (forall n, time (cond_run clock (S n) (createCondition t0)) = clock n) /\
  (forall now s,
     cond_tick now s
       = (with_cond (cond_next now (cond s)) s,
          [RaiseConditionEvent (cond_next now (cond s)) true])).
Proof.
  split; [exact cond_next_flips|].
  split; [exact cond_next_time|].
  split; [intros now c H; now rewrite (cond_next_from_good _ _ H)|].
  split; [intros now c H; now rewrite (cond_next_from_bad _ _ H)|].
  split; [intros c n; apply cond_run_state|].
  split; [exact (cond_run_parity clock t0)|].
  split; [|split; [intros n; apply cond_next_time | reflexivity]].
  intros n.
  destruct (cond_run_parity clock t0 n) as [Hs Hv].
  destruct (cond_run_parity clock t0 (S n)) as [Hs' Hv'].
  rewrite Hs, Hv, Hs', Hv'. rewrite Nat.even_succ, <- Nat.negb_even.
  destruct (Nat.even n); cbn [negb]; repeat split; try lia; try reflexivity;
    intros [? ?]; discriminate.
Qed.

(** C3, as the source has it: the condition is created with the message
    "MyCondition is Good!", severity 150 and retain true; the first tick makes
    it "MyCondition is Bad!" with severity 800 and the time of that tick, the
    second tick makes it "MyCondition is Good!" with severity 150 again;
    retain is true after every number of ticks. *)
Theorem condition_scenario (t0 t1 t2 : Z) :
  message (createCondition t0) = "MyCondition is Good!" /\
  severity (createCondition t0) = 150 /\
  retain (createCondition t0) = true /\
  message (cond_next t1 (createCondition t0)) = "MyCondition is Bad!" /\
  severity (cond_next t1 (createCondition t0)) = 800 /\
  retain (cond_next t1 (createCondition t0)) = true /\
  time (cond_next t1 (createCondition t0)) = t1 /\
  message (cond_next t2 (cond_next t1 (createCondition t0))) = "MyCondition is Good!" /\
  severity (cond_next t2 (cond_next t1 (createCondition t0))) = 150 /\
  retain (cond_next t2 (cond_next t1 (createCondition t0))) = true /\
  time (cond_next t2 (cond_next t1 (createCondition t0))) = t2 /\
  (forall (clock : nat -> Z) (n : nat),
     retain (cond_run clock n (createCondition t0)) = true).
Proof.
  repeat (split; [reflexivity|]).
  intros clock n. apply cond_run_retain.
Qed.

(** C3, as the specification words it, fails: the messages of the source are not the
    texts "Good!" and "Bad!"; and a condition that did carry the message
    "Good!" would be sent to the good state, severity 150, by its first tick. *)
Lemma scenario_literal_texts_differ :
  message (createCondition 0) <> "Good!" /\
  message (cond_next 15000 (createCondition 0)) <> "Bad!" /\
  cond_next 15000 (mkCondition 150 "Good!" true 0)
    = mkCondition 150 "MyCondition is Good!" true 15000.
Proof.
  split; [discriminate|]. split; [discriminate|]. reflexivity.
Qed.

End ConditionFacts.

(** ** The ramp MyVar and its limit alarm *)
Section RampAndAlarmFacts.

Import OwnServer.

Lemma step_alarm (e : Stimulus) (s : State) : alarm (step e s) = alarm s.
Proof.
  destruct e; try reflexivity.
  cbn [step]. unfold written. cbn [set declared mySeverity]. unfold mySeverity_set.
  destruct (same_type _ _); [|reflexivity].
  destruct (gt _ _ || lt _ _); reflexivity.
Qed.

Lemma run_alarm (es : list Stimulus) (s : State) : alarm (run es s) = alarm s.
Proof.
  unfold run. revert s. induction es as [|e es IH]; intros s; [reflexivity|].
  cbn [fold_left]. rewrite IH. apply step_alarm.
Qed.

Lemma step_myValue_write (v : Variant) (s : State) :
  myValue (step (WriteMyVar v) s) = myValue s /\
  myValue (step (WriteMySeverity v) s) = myValue s.
Proof.
  split; [reflexivity|].
  cbn [step]. unfold written. cbn [set declared mySeverity]. unfold mySeverity_set.
  destruct (same_type _ _); [|reflexivity].
  destruct (gt _ _ || lt _ _); reflexivity.
Qed.

(** C5: the alarm is created with lowlow = -5, low = 20, high = 40,
    highhigh = 50, in that order, and whatever the timers and the external
    writers do afterwards leaves these four limits (and retain = true) as
    they are; against them the band function puts -10, 0, 30, 45, 60 into
    LowLow, Low, Normal, High, HighHigh, and in general: below lowlow is
    LowLow, [lowlow, low) is Low, [low, high] is Normal (inactive),
    (high, highhigh] is High, above highhigh is HighHigh. *)
Theorem alarm_limits_and_bands :
  (forall (now : Z) (es : list Stimulus),
     alarm (run es (initial now)) = mkAlarm 50 40 20 (-5) (Some true)) /\
  (forall now : Z,
     lowLowLimit (alarm (initial now)) <= lowLimit (alarm (initial now))
       <= highLimit (alarm (initial now)) /\
     highLimit (alarm (initial now)) <= highHighLimit (alarm (initial now))) /\
  (forall now : Z,
     List.map (alarm_band (alarm (initial now))) [-10; 0; 30; 45; 60]
       = [LowLow; Low; Normal; High; HighHigh]) /\
  (forall (now : Z) (es : list Stimulus) (v : Z),
     let a := alarm (run es (initial now)) in
     (alarm_band a v = LowLow <-> v < -5) /\
     (alarm_band a v = Low <-> -5 <= v < 20) /\
     (alarm_band a v = Normal <-> 20 <= v <= 40) /\
     (alarm_band a v = High <-> 40 < v <= 50) /\
     (alarm_band a v = HighHigh <-> 50 < v)).
Proof.
  split; [intros now es; now rewrite run_alarm|].
  split; [intros now; cbn; lia|].
  split; [reflexivity|].
  intros now es v a. subst a. rewrite run_alarm.
  unfold alarm_band, classify. cbn.
  destruct (Z.ltb_spec v (-5)); [repeat split; try lia; try discriminate; reflexivity|].
  destruct (Z.ltb_spec v 20); [repeat split; try lia; try discriminate; reflexivity|].
  destruct (Z.leb_spec v 40); [repeat split; try lia; try discriminate; reflexivity|].
  destruct (Z.leb_spec v 50); repeat split; try lia; try discriminate; reflexivity.
Qed.

(** The ramp stays between its floor and the last value below the bound. *)
Lemma myValue_next_bounds (v : Z) :
  -25 <= v < 60 -> -25 <= myValue_next v < 60.
Proof.
  intros H. unfold myValue_next. cbn zeta.
  destruct (Z.geb_spec (v + 1) 60); lia.
Qed.

(** C6: a tick of the ramp adds the step 1; when the sum reaches or exceeds
    the bound 60 the value becomes the floor -25, otherwise it is the sum.
    The variable MyVar is bound to a getter that computes its value from the
    ramp and to no setter: an external write to it runs no code of the
    source and leaves the state as it was, and no external write to either
    variable changes the ramp. *)
Theorem myVar_ramp_read_only :
  (forall v : Z, 60 <= v + 1 -> myValue_next v = -25) /\
  (forall v : Z, v + 1 < 60 -> myValue_next v = v + 1) /\
  (forall s : State,
     myValue_tick s = (with_myValue (myValue_next (myValue s)) s, [])) /\
  (forall s : State, readValue myVar s = mkVariant DtDouble (of_Z (myValue s))) /\
  set myVar = None /\
  (forall (v : Variant) (s : State), step (WriteMyVar v) s = s) /\
  (forall (v : Variant) (s : State),
     myValue (step (WriteMyVar v) s) = myValue s /\
     myValue (step (WriteMySeverity v) s) = myValue s).
Proof.
  split.
  { intros v H. unfold myValue_next. cbn zeta.
    destruct (Z.geb_spec (v + 1) 60); [reflexivity | lia]. }
  split.
  { intros v H. unfold myValue_next. cbn zeta.
    destruct (Z.geb_spec (v + 1) 60); [lia | reflexivity]. }
  split; [reflexivity|].
  split; [reflexivity|].
  split; [reflexivity|].
  split; [reflexivity|].
  exact step_myValue_write.
Qed.

End RampAndAlarmFacts.

(** ** The machine-tool show case logic *)
Section MachineToolFacts.

Import MachineTool.

Lemma override_next_reset (v : Z) : 120 < v + 5 -> override_next v = 50.
Proof.
  intros H. unfold override_next. cbn zeta.
  destruct (Z.gtb_spec (v + 5) 120); [reflexivity | lia].
Qed.

Lemma override_next_add (v : Z) : v + 5 <= 120 -> override_next v = v + 5.
Proof.
  intros H. unfold override_next. cbn zeta.
  destruct (Z.gtb_spec (v + 5) 120); [lia | reflexivity].
Qed.

Lemma override_next_bounds (v : Z) :
  50 <= v <= 120 -> 50 <= override_next v <= 120.
Proof.
  intros H. unfold override_next. cbn zeta.
  destruct (Z.gtb_spec (v + 5) 120); lia.
Qed.

Lemma store_typed (id : NodeId) (v old : Variant) (w : World) :
  nodes w !! id = Some old -> dataType old = dataType v ->
  store id v w = (Ok tt, mkWorld (override w) (<[id := v]> (nodes w)), []).
Proof.
  intros H Ht. unfold store. rewrite H.
  now rewrite (proj2 (same_type_eq _ _) Ht).
Qed.

Lemma store_mistyped (id : NodeId) (v old : Variant) (w : World) :
  nodes w !! id = Some old -> dataType old <> dataType v ->
  store id v w = (Throw, w, []).
Proof.
  intros H Ht. unfold store. rewrite H.
  destruct (same_type (dataType old) (dataType v)) eqn:E; [|reflexivity].
  apply same_type_eq in E. contradiction.
Qed.

(** The two outcomes of a store. *)
Lemma store_cases (id : NodeId) (v : Variant) (w : World) :
  (exists old, nodes w !! id = Some old /\ dataType old = dataType v /\
     store id v w = (Ok tt, mkWorld (override w) (<[id := v]> (nodes w)), []))
  \/ store id v w = (Throw, w, []).
Proof.
  unfold store. destruct (nodes w !! id) as [old|]; [|now right].
  destruct (same_type (dataType old) (dataType v)) eqn:E; [|now right].
  left. exists old. apply same_type_eq in E. auto.
Qed.

Lemma has_type_lookup (id : NodeId) (dt : DataType) (m : gmap NodeId Variant) :
  has_type id dt m <-> exists old, m !! id = Some old /\ dataType old = dt.
Proof.
  unfold has_type. destruct (m !! id) as [old|]; cbn; split.
  - intros H. injection H as <-. eauto.
  - intros (x & Hx & <-). injection Hx as ->. reflexivity.
  - discriminate.
  - intros (x & Hx & _). discriminate.
Qed.

Lemma feedOverride_tick_present (idx : Z) (w : World) :
  has_type (feedOverride_id idx) DtDouble (nodes w) ->
  feedOverride_tick idx w
    = (Ok tt, after_feedOverride_tick idx w, [FindNode (feedOverride_id idx)]).
Proof.
  intros H. apply has_type_lookup in H. destruct H as (old & Hx & Ht).
  unfold feedOverride_tick, bind, get_override, set_override,
    findNode, setValueFromSource. cbn. rewrite Hx.
  erewrite store_typed; [reflexivity | exact Hx | exact Ht].
Qed.

(** When the node cannot be resolved the counter has moved on already and
    the call on [null] throws. *)
Lemma feedOverride_tick_missing (idx : Z) (w : World) :
  nodes w !! feedOverride_id idx = None ->
  feedOverride_tick idx w
    = (Throw, mkWorld (override_next (override w)) (nodes w),
       [FindNode (feedOverride_id idx)]).
Proof.
  intros Hx. unfold feedOverride_tick, bind, get_override, set_override,
    findNode, setValueFromSource. cbn. rewrite Hx. reflexivity.
Qed.

(** When the node is declared with another data type the counter has moved
    on already and the library refuses the value. *)
Lemma feedOverride_tick_mistyped (idx : Z) (w : World) (old : Variant) :
  nodes w !! feedOverride_id idx = Some old -> dataType old <> DtDouble ->
  feedOverride_tick idx w
    = (Throw, mkWorld (override_next (override w)) (nodes w),
       [FindNode (feedOverride_id idx)]).
Proof.
  intros Hx Ht. unfold feedOverride_tick, bind, get_override, set_override,
    findNode, setValueFromSource. cbn. rewrite Hx.
  erewrite store_mistyped; [reflexivity | exact Hx | exact Ht].
Qed.

(** The three outcomes of a tick of the generator. *)
Lemma feedOverride_tick_cases (idx : Z) (w : World) :
  feedOverride_tick idx w
    = (Ok tt, after_feedOverride_tick idx w, [FindNode (feedOverride_id idx)])
  /\ has_type (feedOverride_id idx) DtDouble (nodes w)
  \/ feedOverride_tick idx w
    = (Throw, mkWorld (override_next (override w)) (nodes w),
       [FindNode (feedOverride_id idx)]).
Proof.
  destruct (nodes w !! feedOverride_id idx) as [old|] eqn:Hx.
  - destruct (same_type (dataType old) DtDouble) eqn:Ht.
    + apply same_type_eq in Ht.
      assert (H : has_type (feedOverride_id idx) DtDouble (nodes w)).
      { apply has_type_lookup. eauto. }
      left. split; [now apply feedOverride_tick_present | exact H].
    + right. apply (feedOverride_tick_mistyped idx w old Hx).
      intros E. apply same_type_eq in E. congruence.
  - right. now apply feedOverride_tick_missing.
Qed.

(** C7: a tick of the override generator adds the step 5 to its counter;
    when the sum exceeds the bound 120 the counter becomes the floor 50,
    otherwise it is the sum, so it stays in [50, 120].  The new value is then
    stored in the FeedOverride node with [setValueFromSource], which the
    library accepts for a node of data type Double: an external read returns
    that stored value, and the node holds a stored value that an external
    write of a Double replaces (there is no computed getter in between).
    On a node of another data type the tick throws once the counter has
    moved on, and the node keeps its value. *)
Theorem feedOverride_generator (idx : Z) (w : World) :
  (forall v : Z, 120 < v + 5 -> override_next v = 50) /\
  (forall v : Z, v + 5 <= 120 -> override_next v = v + 5) /\
  (forall v : Z, 50 <= v <= 120 -> 50 <= override_next v <= 120) /\
  (has_type (feedOverride_id idx) DtDouble (nodes w) ->
     feedOverride_tick idx w
       = (Ok tt, after_feedOverride_tick idx w, [FindNode (feedOverride_id idx)]) /\
     override (after_feedOverride_tick idx w) = override_next (override w) /\
     readValue (feedOverride_id idx) (after_feedOverride_tick idx w)
       = Some (mkVariant DtDouble (VNumber (of_Z (override_next (override w))))) /\
     (forall x : Variant, dataType x = DtDouble ->
        fst (writeValue (feedOverride_id idx) x (after_feedOverride_tick idx w))
          = Some Good /\
        readValue (feedOverride_id idx)
          (snd (writeValue (feedOverride_id idx) x (after_feedOverride_tick idx w)))
          = Some x)) /\
  (forall old : Variant,
     nodes w !! feedOverride_id idx = Some old -> dataType old <> DtDouble ->
     feedOverride_tick idx w
       = (Throw, mkWorld (override_next (override w)) (nodes w),
          [FindNode (feedOverride_id idx)])).
Proof.
  split; [exact override_next_reset|].
  split; [exact override_next_add|].
  split; [exact override_next_bounds|].
  split; [|intros old; apply feedOverride_tick_mistyped].
  intros Hn. split; [now apply feedOverride_tick_present|].
  split; [reflexivity|].
  assert (Hr : readValue (feedOverride_id idx) (after_feedOverride_tick idx w)
               = Some (mkVariant DtDouble (VNumber (of_Z (override_next (override w)))))).
  { unfold readValue, after_feedOverride_tick. cbn [nodes].
    apply lookup_insert_eq. }
  split; [exact Hr|].
  intros x Hx. unfold writeValue. unfold readValue in Hr. rewrite Hr.
  cbn [dataType]. rewrite Hx. cbn [same_type fst snd].
  split; [reflexivity|].
  unfold readValue. cbn [nodes]. apply lookup_insert_eq.
Qed.

Lemma feedOverride_generator_witness :
  feedOverride_tick 2
    (mkWorld 120 {[ feedOverride_id 2 := mkVariant DtDouble (VNumber (of_Z 50)) ]})
  = (Ok tt,
     after_feedOverride_tick 2
       (mkWorld 120 {[ feedOverride_id 2 := mkVariant DtDouble (VNumber (of_Z 50)) ]}),
     [FindNode (feedOverride_id 2)]).
Proof.
  refine (proj1 (proj1 (proj2 (proj2 (proj2 (feedOverride_generator 2
    (mkWorld 120 {[ feedOverride_id 2 := mkVariant DtDouble (VNumber (of_Z 50)) ]})))))
    _)).
  unfold has_type. cbn [nodes]. rewrite lookup_singleton_eq. reflexivity.
Defined.

End MachineToolFacts.

(** ** Which handlers go through the address-space accessor *)
Section ResolutionFacts.

Import MachineTool.

Lemma toggle_resolutions (a b : NodeId) (on off t : string) (w : World) :
  resolutions (snd (
    (let! state := findNode a in
     let! stateNumber := findNode b in
     let! text := readText_opt state in
     if text_is text t then
       do! setValueFromSource_opt state (mkVariant DtLocalizedText (VLocalizedText off)) in
       setValueFromSource stateNumber (mkVariant DtNodeId (VNodeId (0, 2)))
     else
       do! setValueFromSource_opt state (mkVariant DtLocalizedText (VLocalizedText on)) in
       setValueFromSource stateNumber (mkVariant DtNodeId (VNodeId (0, 1)))) w))
  = [FindNode a; FindNode b].
Proof.
  unfold bind, findNode, readText_opt, setValueFromSource_opt, setValueFromSource.
  cbn.
  destruct (nodes w !! a) as [[dt va]|] eqn:Ha; destruct (nodes w !! b) eqn:Hb;
    cbn; rewrite ?Ha; cbn;
    try (destruct va as [|n|str|txt|id|lo hi]; cbn; try destruct (String.eqb txt t); cbn);
    repeat match goal with
           | |- context [store ?i ?v ?w0] =>
               destruct (store_cases i v w0) as [(? & _ & _ & E)|E];
               rewrite E; clear E; cbn
           end;
    reflexivity.
Qed.

(** C8, as the source has it: the three timers of the machine-tool logic
    resolve their nodes through [findNode] on every tick (two, two and one
    identifier), whatever the address space holds; the three timers of the
    own address-space logic work on the variables and handles captured when
    the function ran and resolve nothing. *)
Theorem resolution_per_tick :
  (forall (idx : Z) (w : World),
     resolved_by (currentState_tick idx) w
       = [FindNode (idx, 55188); FindNode (idx, 55190)]) /\
  (forall (idx : Z) (w : World),
     resolved_by (machineryItemState_tick idx) w
       = [FindNode (idx, 6011); FindNode (idx, 6012)]) /\
  (forall (idx : Z) (w : World),
     resolved_by (feedOverride_tick idx) w = [FindNode (idx, 55229)]) /\
  (forall (int32 : number -> option Z) (s : OwnServer.State),
     resolutions (snd (OwnServer.count_tick int32 s)) = []) /\
  (forall s : OwnServer.State,
     resolutions (snd (OwnServer.myValue_tick s)) = []) /\
  (forall (now : Z) (s : OwnServer.State),
     resolutions (snd (OwnServer.cond_tick now s)) = []).
Proof.
  split; [intros idx w; apply toggle_resolutions|].
  split; [intros idx w; apply toggle_resolutions|].
  split.
  { intros idx w. unfold resolved_by.
    destruct (feedOverride_tick_cases idx w) as [[E _]|E]; rewrite E; reflexivity. }
  split; [|split; reflexivity].
  intros int32 s. unfold OwnServer.count_tick. cbn [snd].
  destruct (int32 _); reflexivity.
Qed.

(** C8, as the specification words it, fails: on an address space that holds the
    FeedOverride node, one tick of its timer resolves the identifier again;
    so does the CurrentState timer, twice. *)
Lemma handlers_resolve_at_runtime :
  resolved_by (feedOverride_tick 2)
    (mkWorld 50 {[ (2, 55229) := mkVariant DtDouble (VNumber (of_Z 50)) ]})
    = [FindNode (2, 55229)] /\
  resolved_by (currentState_tick 2)
    (mkWorld 50 {[ (2, 55188) := mkVariant DtLocalizedText (VLocalizedText "Running") ]})
    = [FindNode (2, 55188); FindNode (2, 55190)] /\
  resolved_by (feedOverride_tick 2)
    (mkWorld 50 {[ (2, 55229) := mkVariant DtDouble (VNumber (of_Z 50)) ]})
    <> [].
Proof.
  assert (E : resolved_by (feedOverride_tick 2)
    (mkWorld 50 {[ (2, 55229) := mkVariant DtDouble (VNumber (of_Z 50)) ]})
    = [FindNode (2, 55229)]).
  { unfold resolved_by.
    rewrite feedOverride_tick_present; [reflexivity|].
    unfold has_type. cbn [nodes]. unfold feedOverride_id.
    rewrite lookup_singleton_eq. reflexivity. }
  split; [exact E|]. split; [apply toggle_resolutions|].
  rewrite E. discriminate.
Qed.

End ResolutionFacts.

(** ** The user lookup and the login check *)
Section UserFacts.

Import User.

Context {A : Type} (P : A -> bool).

Lemma filter_has_one (l : list A) (i : nat) (x : A) :
  l !! i = Some x -> P x = true -> (1 <= length (List.filter P l))%nat.
Proof.
  revert i. induction l as [|a l IH]; intros i Hi Hx; [discriminate|].
  destruct i as [|i]; cbn in Hi |- *.
  - injection Hi as ->. rewrite Hx. cbn. lia.
  - specialize (IH i Hi Hx). destruct (P a); cbn; lia.
Qed.

Lemma filter_has_two (l : list A) (i j : nat) (x y : A) :
  i <> j -> l !! i = Some x -> l !! j = Some y ->
  P x = true -> P y = true -> (2 <= length (List.filter P l))%nat.
Proof.
  revert i j. induction l as [|a l IH]; intros i j Hne Hi Hj Hx Hy; [discriminate|].
  destruct i as [|i], j as [|j]; cbn in Hi, Hj |- *.
  - congruence.
  - injection Hi as ->. rewrite Hx. cbn.
    pose proof (filter_has_one l j y Hj Hy). lia.
  - injection Hj as ->. rewrite Hy. cbn.
    pose proof (filter_has_one l i x Hi Hx). lia.
  - assert (i <> j) by congruence.
    specialize (IH i j H Hi Hj Hx Hy). destruct (P a); cbn; lia.
Qed.

End UserFacts.

Section LoginFacts.

Import User.

Variable userList : list User.
Variable compare : string -> string -> option string * option bool.

Lemma getUser_duplicates (name : string) (users : list User) (i j : nat) (u u' : User) :
  i <> j -> users !! i = Some u -> users !! j = Some u' ->
  username u = name -> username u' = name ->
  fst (getUser name users) = JsNull.
Proof.
  intros Hne Hi Hj Hu Hu'. unfold getUser. cbn zeta.
  assert (H2 : (2 <= length (List.filter
                  (fun item => String.eqb (username item) name) users))%nat).
  { apply (filter_has_two _ users i j u u' Hne Hi Hj).
    - now apply String.eqb_eq.
    - now apply String.eqb_eq. }
  destruct (Nat.ltb_spec 1 (length (List.filter
              (fun item => String.eqb (username item) name) users))); [reflexivity | lia].
Qed.

(** C9: when two (or more) entries of the user list carry the same username,
    [getUser] returns null for that name, and [isValidUserAsync] invokes its
    callback once, with (null, false), whatever password is supplied and
    whatever bcrypt would answer. *)
Theorem duplicate_username_is_rejected (name pass : string) (i j : nat) (u u' : User) :
  i <> j -> userList !! i = Some u -> userList !! j = Some u' ->
  username u = name -> username u' = name ->
  fst (getUser name userList) = JsNull /\
  fst (isValidUserAsync userList compare name pass) = [mkArgs None (Some false)].
Proof.
  intros Hne Hi Hj Hu Hu'.
  pose proof (getUser_duplicates name userList i j u u' Hne Hi Hj Hu Hu') as Hg.
  split; [exact Hg|].
  unfold isValidUserAsync. destruct (getUser name userList) as [r log].
  cbn in Hg. subst r. reflexivity.
Qed.

(** C10: for every username and password [isValidUserAsync] invokes its
    callback exactly once and the error argument of that invocation is null;
    a user that is not found (or found more than once), and a comparison
    whose result is not [true] (a mismatch, or an error of bcrypt, which
    leaves the result undefined), are both reported as (null, false). *)
Theorem callback_error_is_always_null (name pass : string) :
  (exists b : bool,
     fst (isValidUserAsync userList compare name pass) = [mkArgs None (Some b)]) /\
  (forall args : CallbackArgs,
     In args (fst (isValidUserAsync userList compare name pass)) -> err args = None) /\
  (truthy (fst (getUser name userList)) = false ->
     fst (isValidUserAsync userList compare name pass) = [mkArgs None (Some false)]) /\
  (forall u : User,
     fst (getUser name userList) = JsObject u ->
     snd (compare pass (password u)) <> Some true ->
     fst (isValidUserAsync userList compare name pass) = [mkArgs None (Some false)]) /\
  (forall u : User,
     fst (getUser name userList) = JsObject u ->
     snd (compare pass (password u)) = Some true ->
     fst (isValidUserAsync userList compare name pass) = [mkArgs None (Some true)]).
Proof.
  unfold isValidUserAsync.
  destruct (getUser name userList) as [r log]. cbn [fst].
  destruct r as [| |u0].
  - split; [exists false; reflexivity|].
    split; [intros args [<-|[]]; reflexivity|].
    split; [reflexivity|]. split; intros u Hu; discriminate.
  - split; [exists false; reflexivity|].
    split; [intros args [<-|[]]; reflexivity|].
    split; [reflexivity|]. split; intros u Hu; discriminate.
  - destruct (compare pass (password u0)) as [e [[|]|]] eqn:Hc; cbn [fst snd].
    + split; [exists true; reflexivity|].
      split; [intros args [<-|[]]; reflexivity|].
      split; [discriminate|].
      split; intros u Hu; injection Hu as <-; rewrite Hc; cbn; congruence.
    + split; [exists false; reflexivity|].
      split; [intros args [<-|[]]; reflexivity|].
      split; [discriminate|].
      split; intros u Hu; injection Hu as <-; rewrite Hc; cbn; congruence.
    + split; [exists false; reflexivity|].
      split; [intros args [<-|[]]; reflexivity|].
      split; [discriminate|].
      split; intros u Hu; injection Hu as <-; rewrite Hc; cbn; congruence.
Qed.

End LoginFacts.

Lemma duplicate_username_is_rejected_witness :
  fst (User.getUser "admin"
         [User.mkUser "admin" "$2b$10$aaaa" "SecurityAdmin";
          User.mkUser "guest" "$2b$10$bbbb" "Observer";
          User.mkUser "admin" "$2b$10$cccc" "Operator"]) = User.JsNull /\
  fst (User.isValidUserAsync
         [User.mkUser "admin" "$2b$10$aaaa" "SecurityAdmin";
          User.mkUser "guest" "$2b$10$bbbb" "Observer";
          User.mkUser "admin" "$2b$10$cccc" "Operator"]
         (fun _ _ => (None, Some true)) "admin" "secret")
    = [User.mkArgs None (Some false)].
Proof.
  apply (duplicate_username_is_rejected
           [User.mkUser "admin" "$2b$10$aaaa" "SecurityAdmin";
            User.mkUser "guest" "$2b$10$bbbb" "Observer";
            User.mkUser "admin" "$2b$10$cccc" "Operator"]
           (fun _ _ => (None, Some true)) "admin" "secret" 0%nat 2%nat
           (User.mkUser "admin" "$2b$10$aaaa" "SecurityAdmin")
           (User.mkUser "admin" "$2b$10$cccc" "Operator"));
    [discriminate | reflexivity | reflexivity | reflexivity | reflexivity].
Defined.

(** * Further properties of the code *)

(** ** The user lookup: which entry it returns *)
Section FilterFacts.

Context {A : Type} (P : A -> bool).

Lemma filter_nil_iff (l : list A) :
  List.filter P l = [] <-> (forall x, In x l -> P x = false).
Proof.
  induction l as [|a l IH]; cbn.
  - split; [intros _ x [] | reflexivity].
  - destruct (P a) eqn:Ha.
    + split; [discriminate|]. intros H. specialize (H a (or_introl eq_refl)). congruence.
    + rewrite IH. split.
      * intros H x [<-|Hx]; [exact Ha | now apply H].
      * intros H x Hx. apply H. now right.
Qed.

Lemma filter_single_split (l : list A) (u : A) :
  List.filter P l = [u] ->
  exists l1 l2, l = l1 ++ u :: l2 /\ P u = true /\
    (forall x, In x l1 -> P x = false) /\ (forall x, In x l2 -> P x = false).
Proof.
  induction l as [|a l IH]; cbn; [discriminate|].
  destruct (P a) eqn:Ha.
  - intros H. injection H as -> Hl. exists [], l. split; [reflexivity|].
    split; [exact Ha|]. split; [intros x []|]. now apply filter_nil_iff.
  - intros H. destruct (IH H) as (l1 & l2 & -> & Hu & H1 & H2).
    exists (a :: l1), l2. split; [reflexivity|]. split; [exact Hu|].
    split; [|exact H2]. intros x [<-|Hx]; [exact Ha | now apply H1].
Qed.

Lemma filter_split_single (l1 l2 : list A) (u : A) :
  P u = true ->
  (forall x, In x l1 -> P x = false) -> (forall x, In x l2 -> P x = false) ->
  List.filter P (l1 ++ u :: l2) = [u].
Proof.
  intros Hu H1 H2. rewrite List.filter_app. cbn. rewrite Hu.
  rewrite (proj2 (filter_nil_iff l1) H1), (proj2 (filter_nil_iff l2) H2).
  reflexivity.
Qed.

Lemma filter_one_index (l : list A) :
  (1 <= length (List.filter P l))%nat ->
  exists i x, l !! i = Some x /\ P x = true.
Proof.
  induction l as [|a l IH]; cbn; [lia|].
  destruct (P a) eqn:Ha.
  - intros _. exists 0%nat, a. split; [reflexivity | exact Ha].
  - intros H. destruct (IH H) as (i & x & Hi & Hx). exists (S i), x. now split.
Qed.

Lemma filter_two_indices (l : list A) :
  (2 <= length (List.filter P l))%nat ->
  exists i j x y, i <> j /\ l !! i = Some x /\ l !! j = Some y /\
    P x = true /\ P y = true.
Proof.
  induction l as [|a l IH]; cbn; [lia|].
  destruct (P a) eqn:Ha; cbn.
  - intros H. destruct (filter_one_index l) as (j & y & Hj & Hy); [lia|].
    exists 0%nat, (S j), a, y. repeat split; try assumption. discriminate.
  - intros H. destruct (IH H) as (i & j & x & y & Hne & Hi & Hj & Hx & Hy).
    exists (S i), (S j), x, y. repeat split; try assumption. congruence.
Qed.

End FilterFacts.

Section UserLookupFacts.

Import User.

Variable userList : list User.
Variable compare : string -> string -> option string * option bool.
Variable makeRoles : string -> list NodeId.

Lemma eqb_false_all (name : string) (l : list User) :
  (forall x, In x l -> String.eqb (username x) name = false)
  <-> (forall x, In x l -> username x <> name).
Proof.
  split; intros H x Hx; specialize (H x Hx); now apply String.eqb_neq.
Qed.

Lemma getUser_by_filter (name : string) (users : list User) :
  match List.filter (fun item => String.eqb (username item) name) users with
  | [] => getUser name users = (JsUndefined, [])
  | [u] => getUser name users = (JsObject u, [])
  | _ :: _ :: _ => fst (getUser name users) = JsNull
  end.
Proof.
  unfold getUser. cbn zeta.
  destruct (List.filter _ users) as [|a [|b r]]; reflexivity.
Qed.

Lemma getUser_object_iff (name : string) (users : list User) (u : User) :
  fst (getUser name users) = JsObject u <-> only_entry name users u.
Proof.
  pose proof (getUser_by_filter name users) as Hg. split.
  - intros H.
    destruct (List.filter _ users) as [|a [|b r]] eqn:Hf; rewrite Hg in H;
      try discriminate.
    cbn in H. injection H as ->.
    destruct (filter_single_split _ users u Hf) as (l1 & l2 & -> & Hu & H1 & H2).
    exists l1, l2. split; [reflexivity|]. split; [now apply String.eqb_eq|].
    split; now apply eqb_false_all.
  - intros (l1 & l2 & -> & Hu & H1 & H2).
    assert (Hf : List.filter (fun item => String.eqb (username item) name)
                   (l1 ++ u :: l2) = [u]).
    { apply filter_split_single; [now apply String.eqb_eq| |]; now apply eqb_false_all. }
    rewrite Hf in Hg. now rewrite Hg.
Qed.

Lemma getUser_undefined_iff (name : string) (users : list User) :
  getUser name users = (JsUndefined, [])
  <-> (forall x, In x users -> username x <> name).
Proof.
  pose proof (getUser_by_filter name users) as Hg.
  rewrite <- eqb_false_all, <- filter_nil_iff. split.
  - intros H. destruct (List.filter _ users) as [|a [|b r]]; [reflexivity| |];
      rewrite H in Hg; discriminate.
  - intros Hf. now rewrite Hf in Hg.
Qed.

Lemma getUser_null_iff (name : string) (users : list User) :
  fst (getUser name users) = JsNull
  <-> exists i j x y, i <> j /\ users !! i = Some x /\ users !! j = Some y /\
        username x = name /\ username y = name.
Proof.
  split.
  - intros H. pose proof (getUser_by_filter name users) as Hg.
    destruct (filter_two_indices (fun item => String.eqb (username item) name) users)
      as (i & j & x & y & Hne & Hi & Hj & Hx & Hy).
    { destruct (List.filter _ users) as [|a [|b r]]; [| |cbn; lia];
        rewrite Hg in H; discriminate. }
    exists i, j, x, y. repeat split; try assumption; now apply String.eqb_eq.
  - intros (i & j & x & y & Hne & Hi & Hj & Hx & Hy).
    exact (getUser_duplicates name users i j x y Hne Hi Hj Hx Hy).
Qed.

(** X1: [getUser] returns an entry exactly when it is the only entry of the
    list with that username, [undefined] (and no log line) exactly when no
    entry has the username, and [null] exactly when two entries at different
    positions have it; it logs only in the last case. *)
Theorem getUser_characterised (name : string) (users : list User) :
  (forall u, fst (getUser name users) = JsObject u <-> only_entry name users u) /\
  (getUser name users = (JsUndefined, [])
     <-> forall x, In x users -> username x <> name) /\
  (fst (getUser name users) = JsNull
     <-> exists i j x y, i <> j /\ users !! i = Some x /\ users !! j = Some y /\
           username x = name /\ username y = name) /\
  (forall u, fst (getUser name users) = JsObject u -> snd (getUser name users) = []).
Proof.
  split; [intros u; apply getUser_object_iff|].
  split; [apply getUser_undefined_iff|].
  split; [apply getUser_null_iff|].
  intros u H. pose proof (getUser_by_filter name users) as Hg.
  destruct (List.filter _ users) as [|a [|b r]]; rewrite Hg in H;
    try discriminate. rewrite Hg. reflexivity.
Qed.

(** X2: the login is authorised exactly when the user list has one single
    entry with the username and bcrypt's result for the supplied password
    against the hash of that entry is [true]. *)
Theorem login_authorised_iff (name pass : string) :
  fst (isValidUserAsync userList compare name pass) = [mkArgs None (Some true)]
  <-> exists u, only_entry name userList u /\
        snd (compare pass (password u)) = Some true.
Proof.
  split.
  - intros H. unfold isValidUserAsync in H.
    destruct (getUser name userList) as [r log] eqn:Hg.
    destruct r as [| |u]; try discriminate.
    exists u. split; [apply getUser_object_iff; now rewrite Hg|].
    destruct (compare pass (password u)) as [e [[|]|]]; [reflexivity| |]; discriminate.
  - intros (u & Hu & Hc). apply getUser_object_iff in Hu.
    unfold isValidUserAsync. destruct (getUser name userList) as [r log].
    cbn in Hu. subst r. destruct (compare pass (password u)) as [e res].
    cbn in Hc. subst res. reflexivity.
Qed.

(** X3: for a username that no entry carries (in particular with an empty
    user list) the login is rejected with (null, false) and the one line
    " User:unknown rejected! ", without bcrypt being consulted. *)
Theorem unknown_user_is_rejected (name pass : string) :
  (forall x, In x userList -> username x <> name) ->
  isValidUserAsync userList compare name pass
    = ([mkArgs None (Some false)], [red " User:unknown rejected! "]).
Proof.
  intros H. apply getUser_undefined_iff in H.
  unfold isValidUserAsync. rewrite H. reflexivity.
Qed.

(** X4: [getUserRoles] hands [makeRoles] the roles of the entry when the
    username has exactly one entry, and the empty string when it has none or
    more than one; no password is involved. *)
Theorem getUserRoles_cases (name : string) :
  (forall u, only_entry name userList u ->
     getUserRoles userList makeRoles name = (makeRoles (roles u), [])) /\
  ((forall x, In x userList -> username x <> name) ->
     getUserRoles userList makeRoles name = (makeRoles "", [])) /\
  (forall i j x y, i <> j -> userList !! i = Some x -> userList !! j = Some y ->
     username x = name -> username y = name ->
     fst (getUserRoles userList makeRoles name) = makeRoles "").
Proof.
  unfold getUserRoles. split; [|split].
  - intros u Hu. apply getUser_object_iff in Hu.
    pose proof (getUser_by_filter name userList) as Hg.
    destruct (List.filter _ userList) as [|a [|b r]]; rewrite Hg in Hu;
      try discriminate.
    rewrite Hg. cbn in Hu. injection Hu as ->. cbn.
    destruct (String.eqb_spec (roles u) "") as [->|]; reflexivity.
  - intros H. apply getUser_undefined_iff in H. rewrite H. reflexivity.
  - intros i j x y Hne Hi Hj Hx Hy.
    pose proof (getUser_duplicates name userList i j x y Hne Hi Hj Hx Hy) as Hg.
    destruct (getUser name userList) as [r log]. cbn in Hg. subst r. reflexivity.
Qed.

End UserLookupFacts.

Lemma unknown_user_is_rejected_witness :
  User.isValidUserAsync [] (fun _ _ => (None, Some true)) "admin" "secret"
    = ([User.mkArgs None (Some false)], [User.red " User:unknown rejected! "]).
Proof.
  apply (unknown_user_is_rejected [] (fun _ _ => (None, Some true)) "admin" "secret").
  intros x [].
Defined.

(** ** The own address-space logic over whole runs *)
Section OwnServerRunFacts.

Import OwnServer.

(** The construction of the Int32 Variant (node-opcua, not under src/). *)
Variable int32 : number -> option Z.

(** X5: driven by its timer alone, the event severity counter is periodic
    with period 19: after [n] ticks from its initial value 100 it is
    100 + 50 * (n mod 19); it reaches 1000 and the next tick is the reset. *)
Theorem count_run_closed_form (n : nat) :
  count_run n (of_Z 100) = of_Z (100 + 50 * (Z.of_nat n mod 19)).
Proof.
  induction n as [|n IH]; [reflexivity|].
  cbn [count_run]. rewrite IH, count_next_of_Z.
  - f_equal. rewrite Nat2Z.inj_succ.
    destruct (Z.gtb_spec (100 + 50 * (Z.of_nat n mod 19) + 50) 1000);
      Z.div_mod_to_equations; lia.
  - assert (1050 < 2 ^ 52) by reflexivity.
    pose proof (Z.mod_pos_bound (Z.of_nat n) 19 eq_refl). lia.
Qed.

Lemma run_cons (e : Stimulus) (es : list Stimulus) (s : State) :
  run (e :: es) s = run es (step e s).
Proof. reflexivity. Qed.

Lemma myValue_run_shift (n : nat) (v : Z) :
  myValue_run n (myValue_next v) = myValue_next (myValue_run n v).
Proof. induction n as [|n IH]; [reflexivity|]. cbn [myValue_run]. now rewrite IH. Qed.

Lemma step_myValue (e : Stimulus) (s : State) :
  myValue (step e s)
    = match e with TickMyValue => myValue_next (myValue s) | _ => myValue s end.
Proof.
  destruct e as [| |now|v|v]; try reflexivity.
  apply (proj2 (step_myValue_write v s)).
Qed.

Lemma step_cond (e : Stimulus) (s : State) :
  cond (step e s)
    = match e with TickCondition now => cond_next now (cond s) | _ => cond s end.
Proof.
  destruct e as [| |now|v|v]; try reflexivity.
  cbn [step]. unfold written. cbn [set declared mySeverity]. unfold mySeverity_set.
  destruct (same_type _ _); [|reflexivity].
  destruct (gt _ _ || lt _ _); reflexivity.
Qed.

(** X6: whatever the timers and the external writers do, the value behind
    MyVar stays an integer between -25 and 59; counted in ticks of its own
    timer it is periodic with period 85: after [n] ticks from 25 it is
    (n + 50) mod 85 - 25. *)
Theorem ramp_stays_in_range :
  (forall (now : Z) (es : list Stimulus),
     -25 <= myValue (run es (initial now)) <= 59) /\
  (forall n : nat, myValue_run n 25 = (Z.of_nat n + 50) mod 85 - 25).
Proof.
  split.
  - intros now es.
    assert (H : forall s, -25 <= myValue s < 60 -> -25 <= myValue (run es s) < 60).
    { induction es as [|e es IH]; intros s Hs; [exact Hs|].
      rewrite run_cons. apply IH. rewrite step_myValue.
      destruct e; try exact Hs. now apply myValue_next_bounds. }
    specialize (H (initial now)). cbn [initial myValue] in H. lia.
  - intros n. induction n as [|n IH]; [reflexivity|].
    cbn [myValue_run]. rewrite IH. unfold myValue_next. cbn zeta.
    rewrite Nat2Z.inj_succ.
    destruct (Z.geb_spec ((Z.of_nat n + 50) mod 85 - 25 + 1) 60);
      Z.div_mod_to_equations; lia.
Qed.

(** X7: the timers do not interfere: in any run the ramp is where its own
    ticks alone put it, the condition is where its own ticks (with their
    clock readings) alone put it, and the alarm is as it was; external
    writes and the other timers change neither. *)
Theorem timers_are_independent (es : list Stimulus) (s : State) :
  myValue (run es s) = myValue_run (ramp_ticks es) (myValue s) /\
  cond (run es s) = cond_after (condition_clock es) (cond s) /\
  alarm (run es s) = alarm s.
Proof.
  split; [|split; [|apply run_alarm]].
  - revert s. induction es as [|e es IH]; intros s; [reflexivity|].
    rewrite run_cons, IH, step_myValue.
    destruct e; try reflexivity.
    cbn [ramp_ticks myValue_run]. apply myValue_run_shift.
  - revert s. induction es as [|e es IH]; intros s; [reflexivity|].
    rewrite run_cons, IH, step_cond.
    destruct e; reflexivity.
Qed.

(** X8: the setter and the event timer share one variable.  After an
    accepted write of [w] the next tick of the timer sets the counter to
    the sum of [w] and 50 (the nearest double), or to 100 when that exceeds
    1000, so the counter stays within [100, 1000]; the event it raises (when
    the Int32 Variant can be built) reports that number in its message and
    carries the integer of the Variant as severity.  After a refused write
    the next tick is what it would have been without the write. *)
Theorem write_rebases_event_counter (v : Variant) (s : State) :
  (within_range (value v) ->
     count_tick int32 (snd (mySeverity_set v s))
       = (with_count (count_next (value v)) s,
          match int32 (count_next (value v)) with
          | Some sev => [RaiseEvent (mkEventData (count_next (value v)) sev)]
          | None => []
          end) /\
     in_band (count_next (value v))) /\
  (outside_range (value v) ->
     count_tick int32 (snd (mySeverity_set v s)) = count_tick int32 s).
Proof.
  split.
  - intros H. rewrite (mySeverity_set_within v s H). split; [reflexivity|].
    apply count_next_in_band. exact H.
  - intros H. now rewrite (mySeverity_set_outside v s H).
Qed.

Lemma emitted_events_in_band (es : list Stimulus) (s : State) (d : RaiseEventData) :
  (forall v, In (WriteMySeverity v) es -> is_nan (value v) = false) ->
  in_band (count s) ->
  In (RaiseEvent d) (run_emitted int32 es s) ->
  in_band (ev_message_count d) /\ int32 (ev_message_count d) = Some (ev_severity d).
Proof.
  revert s. induction es as [|e es IH]; intros s Hes Hs Hd; [destruct Hd|].
  cbn [run_emitted] in Hd. apply in_app_or in Hd. destruct Hd as [Hd|Hd].
  - destruct e as [| |now|v|v]; cbn [emitted count_tick snd myValue_tick cond_tick] in Hd.
    + destruct (int32 (count_next (count s))) as [sev|] eqn:Hi; [|destruct Hd].
      destruct Hd as [Hd|[]]. injection Hd as <-. cbn. split; [|exact Hi].
      now apply count_next_in_band.
    + destruct Hd.
    + destruct Hd as [Hd|[]]. discriminate.
    + destruct Hd.
    + destruct Hd.
  - apply (IH (step e s)); [| |exact Hd].
    + intros v Hv. apply Hes. now right.
    + apply step_count_in_band; [|exact Hs]. intros v ->. apply Hes. now left.
Qed.

(** X9: in a run from the initial state in which no NaN is written to
    MySeverity, every event that the event timer raises reports in its
    message a number between 100 and 1000, and its severity is the integer
    of the Int32 Variant built from that number. *)
Theorem raised_events_in_band (now : Z) (es : list Stimulus) (d : RaiseEventData) :
  (forall v, In (WriteMySeverity v) es -> is_nan (value v) = false) ->
  In (RaiseEvent d) (run_emitted int32 es (initial now)) ->
  in_band (ev_message_count d) /\ int32 (ev_message_count d) = Some (ev_severity d).
Proof.
  intros Hes Hd. apply (emitted_events_in_band es (initial now) d Hes); [|exact Hd].
  split; reflexivity.
Qed.

Lemma cond_next_consistent (now : Z) (c : Condition) : consistent (cond_next now c).
Proof.
  unfold cond_next, consistent.
  destruct (String.eqb (message c) good_text); [right | left]; split; reflexivity.
Qed.

Lemma step_keeps_condition (e : Stimulus) (s : State) :
  consistent (cond s) /\ retain (cond s) = true ->
  consistent (cond (step e s)) /\ retain (cond (step e s)) = true.
Proof.
  intros [Hc Hr]. rewrite step_cond. destruct e; try (split; assumption).
  split; [apply cond_next_consistent | now rewrite cond_next_retain].
Qed.

Lemma emitted_snapshots (es : list Stimulus) (s : State) (snap : Condition) (renew : bool) :
  consistent (cond s) /\ retain (cond s) = true ->
  In (RaiseConditionEvent snap renew) (run_emitted int32 es s) ->
  consistent snap /\ retain snap = true /\ renew = true.
Proof.
  revert s. induction es as [|e es IH]; intros s Hs Hd; [destruct Hd|].
  cbn [run_emitted] in Hd. apply in_app_or in Hd. destruct Hd as [Hd|Hd].
  - destruct e as [| |now|v|v]; cbn [emitted count_tick snd myValue_tick cond_tick] in Hd.
    + destruct (int32 (count_next (count s))); [|destruct Hd].
      destruct Hd as [Hd|[]]. discriminate.
    + destruct Hd.
    + destruct Hd as [Hd|[]]. injection Hd as <- <-. destruct Hs as [_ Hr].
      split; [apply cond_next_consistent|]. split; [|reflexivity].
      now rewrite cond_next_retain.
    + destruct Hd.
    + destruct Hd.
  - apply (IH (step e s)); [|exact Hd]. now apply step_keeps_condition.
Qed.

(** X10: in every state that a run from the initial state reaches, message
    and severity of MyCondition agree (the good text with 150, or the bad
    text with 800) and retain is true; every condition event raised along
    the run carries a snapshot with the same properties and is raised as a
    new event. *)
Theorem condition_stays_consistent (now : Z) (es : list Stimulus) :
  consistent (cond (run es (initial now))) /\
  retain (cond (run es (initial now))) = true /\
  (forall snap renew,
     In (RaiseConditionEvent snap renew) (run_emitted int32 es (initial now)) ->
     consistent snap /\ retain snap = true /\ renew = true).
Proof.
  assert (H0 : consistent (cond (initial now)) /\ retain (cond (initial now)) = true).
  { split; [left; split|]; reflexivity. }
  assert (H : forall s, consistent (cond s) /\ retain (cond s) = true ->
                consistent (cond (run es s)) /\ retain (cond (run es s)) = true).
  { induction es as [|e es IH]; intros s Hs; [exact Hs|].
    rewrite run_cons. apply IH. now apply step_keeps_condition. }
  destruct (H _ H0) as [Hc Hr]. split; [exact Hc|]. split; [exact Hr|].
  intros snap renew. now apply emitted_snapshots.
Qed.

End OwnServerRunFacts.

Lemma write_rebases_event_counter_witness :
  OwnServer.count_tick (fun _ => Some 100)
    (snd (OwnServer.mySeverity_set (OwnServer.mkVariant DtDouble (of_Z 980))
            (OwnServer.initial 0)))
    = (OwnServer.with_count (of_Z 100) (OwnServer.initial 0),
       [RaiseEvent (mkEventData (of_Z 100) 100)]).
Proof.
  refine (eq_trans (proj1 (proj1 (write_rebases_event_counter (fun _ => Some 100)
            (OwnServer.mkVariant DtDouble (of_Z 980)) (OwnServer.initial 0)) _)) _);
    [split|]; reflexivity.
Defined.

Lemma raised_events_in_band_witness :
  OwnServer.in_band (ev_message_count (mkEventData (of_Z 150) 150)) /\
  (fun _ : number => Some 150) (ev_message_count (mkEventData (of_Z 150) 150))
    = Some (ev_severity (mkEventData (of_Z 150) 150)).
Proof.
  apply (raised_events_in_band (fun _ => Some 150) 0
           [OwnServer.WriteMySeverity (OwnServer.mkVariant DtDouble (of_Z 100));
            OwnServer.TickCount]
           (mkEventData (of_Z 150) 150)).
  - intros v [Hv|[Hv|[]]]; [injection Hv as <-; reflexivity | discriminate].
  - left. reflexivity.
Defined.

(** ** The machine-tool logic: start-up, runs of the timers, missing nodes *)
Section MachineToolRunFacts.

Import MachineTool.

Lemma lookup_set_if_present (id j : NodeId) (v : Variant) (m : gmap NodeId Variant) :
  set_if_present id v m !! j
    = if decide (id = j)
      then match m !! j with Some _ => Some v | None => None end
      else m !! j.
Proof.
  unfold set_if_present. case_decide as Hj.
  - subst j. destruct (m !! id) eqn:Hm; [apply lookup_insert_eq | exact Hm].
  - destruct (m !! id); [now apply lookup_insert_ne | reflexivity].
Qed.

Lemma dom_set_if_present (id : NodeId) (v : Variant) (m : gmap NodeId Variant) :
  dom (set_if_present id v m) = dom m.
Proof.
  unfold set_if_present. destruct (m !! id) eqn:Hm; [|reflexivity].
  apply dom_insert_lookup_L. now rewrite Hm.
Qed.

(** A value that is accepted leaves every node with its data type. *)
Lemma types_set_if_present (id j : NodeId) (v : Variant) (m : gmap NodeId Variant) :
  accepts id v m = true ->
  dataType <$> set_if_present id v m !! j = dataType <$> m !! j.
Proof.
  unfold accepts. intros Ha. rewrite lookup_set_if_present.
  case_decide as Hj; [subst j|reflexivity].
  destruct (m !! id) as [old|]; [|reflexivity].
  cbn. f_equal. symmetry. now apply same_type_eq.
Qed.

Lemma accepts_set_if_present (id j : NodeId) (v x : Variant) (m : gmap NodeId Variant) :
  accepts id v m = true ->
  accepts j x (set_if_present id v m) = accepts j x m.
Proof.
  intros Ha. pose proof (types_set_if_present id j v m Ha) as Ht.
  unfold accepts.
  destruct (set_if_present id v m !! j), (m !! j); cbn in Ht; try discriminate;
    [|reflexivity].
  injection Ht as ->. reflexivity.
Qed.

Lemma write_all_dom (vs : list (NodeId * Variant)) (m : gmap NodeId Variant) :
  dom (snd (write_all vs m)) = dom m.
Proof.
  revert m. induction vs as [|[id v] vs IH]; intros m; [reflexivity|].
  cbn [write_all]. destruct (accepts id v m); [|reflexivity].
  rewrite IH. apply dom_set_if_present.
Qed.

Lemma write_all_types (vs : list (NodeId * Variant)) (m : gmap NodeId Variant)
      (j : NodeId) :
  dataType <$> snd (write_all vs m) !! j = dataType <$> m !! j.
Proof.
  revert m. induction vs as [|[id v] vs IH]; intros m; [reflexivity|].
  cbn [write_all]. destruct (accepts id v m) eqn:Ha; [|reflexivity].
  rewrite IH. now apply types_set_if_present.
Qed.

Lemma write_all_other (vs : list (NodeId * Variant)) (m : gmap NodeId Variant)
      (j : NodeId) :
  (forall v, ~ In (j, v) vs) -> snd (write_all vs m) !! j = m !! j.
Proof.
  revert m. induction vs as [|[id v] vs IH]; intros m Hj; [reflexivity|].
  cbn [write_all]. destruct (accepts id v m); [|reflexivity].
  rewrite IH by (intros x Hx; apply (Hj x); now right).
  rewrite lookup_set_if_present. case_decide as E; [|reflexivity].
  subst j. exfalso. apply (Hj v). now left.
Qed.

Lemma write_all_accepts (vs : list (NodeId * Variant)) (m : gmap NodeId Variant) :
  fst (write_all vs m) = true
  <-> forall id v, In (id, v) vs -> accepts id v m = true.
Proof.
  revert m. induction vs as [|[id v] vs IH]; intros m.
  - split; [intros _ id v [] | reflexivity].
  - cbn [write_all]. destruct (accepts id v m) eqn:Ha.
    + rewrite IH. split.
      * intros H j x [E|Hx].
        -- injection E as <- <-. exact Ha.
        -- rewrite <- (accepts_set_if_present id j v x m Ha). now apply H.
      * intros H j x Hx. rewrite (accepts_set_if_present id j v x m Ha).
        apply H. now right.
    + split; [discriminate|]. intros H.
      rewrite <- Ha. apply H. now left.
Qed.

Lemma optional_write_step (id : NodeId) (v : Variant) (k : M unit) (w : World) :
  (let! node := findNode id in do! setValueFromSource_opt node v in k) w
  = if accepts id v (nodes w)
    then let '(r, w', tr) :=
           k (mkWorld (override w) (set_if_present id v (nodes w))) in
         (r, w', FindNode id :: tr)
    else (Throw, w, [FindNode id]).
Proof.
  unfold bind, findNode, setValueFromSource_opt, store, set_if_present, accepts.
  destruct w as [o m]. cbn. destruct (m !! id) as [old|] eqn:Hm; cbn.
  - rewrite Hm. destruct (same_type (dataType old) (dataType v)); cbn;
      [destruct (k _) as [[r w'] tr]|]; reflexivity.
  - destruct (k _) as [[r w'] tr]; reflexivity.
Qed.

Lemma set_override_step (v : Z) (k : M unit) (w : World) :
  (do! set_override v in k) w = k (mkWorld v (nodes w)).
Proof.
  unfold bind, set_override. destruct (k _) as [[r w'] tr]. reflexivity.
Qed.

Lemma final_write_step (id : NodeId) (v : Variant) (w : World) :
  (let! node := findNode id in setValueFromSource node v) w
  = (if nodes w !! id is Some _ then
       if accepts id v (nodes w) then Ok tt else Throw
     else Throw,
     mkWorld (override w) (snd (write_all [(id, v)] (nodes w))), [FindNode id]).
Proof.
  unfold bind, findNode, setValueFromSource, store, write_all, set_if_present, accepts.
  destruct w as [o m]. cbn. destruct (m !! id) as [old|] eqn:Hm; cbn.
  - rewrite Hm. destruct (same_type (dataType old) (dataType v)); reflexivity.
  - reflexivity.
Qed.

Local Ltac refused_write :=
  eexists _, _, _; split; [reflexivity|];
  (split; [|discriminate]);
  (split; [discriminate | intros [H _]; discriminate H]).

(** The outcome of the start-up statements: the address space is the one
    that the six writes, up to the first refused one, leave; they succeed
    when no write is refused and Channel1 is there. *)
Lemma startup_equation (idx : Z) (w : World) :
  exists r o tr,
    createShowCaseMachineToolLogic idx w
      = (r, mkWorld o (snd (write_all (startup_values idx) (nodes w))), tr) /\
    (r = Ok tt <->
       fst (write_all (startup_values idx) (nodes w)) = true /\
       is_Some (nodes w !! (idx, 55233))) /\
    (r = Ok tt -> o = 50).
Proof.
  assert (Hch : forall m v1 v2 v3 v4 v5,
    set_if_present (idx, 55240) v5 (set_if_present (idx, 55238) v4
      (set_if_present (idx, 55188) v3 (set_if_present (idx, 55185) v2
        (set_if_present (idx, 55186) v1 m)))) !! (idx, 55233) = m !! (idx, 55233)).
  { intros. rewrite !lookup_set_if_present.
    repeat (case_decide; [congruence|]). reflexivity. }
  unfold createShowCaseMachineToolLogic, startup_values.
  destruct w as [o m]. cbn [nodes override].
  rewrite optional_write_step. cbn [nodes override write_all].
  destruct (accepts (idx, 55186) _ m); [|refused_write].
  rewrite optional_write_step. cbn [nodes override].
  destruct (accepts (idx, 55185) _ _); [|refused_write].
  rewrite optional_write_step. cbn [nodes override].
  destruct (accepts (idx, 55188) _ _); [|refused_write].
  rewrite set_override_step. cbn [nodes override].
  rewrite optional_write_step. cbn [nodes override].
  destruct (accepts (idx, 55238) _ _); [|refused_write].
  rewrite optional_write_step. cbn [nodes override].
  destruct (accepts (idx, 55240) _ _); [|refused_write].
  rewrite final_write_step. cbn [nodes override write_all].
  rewrite Hch.
  destruct (accepts (idx, 55233) _ _); cbn [fst snd];
    destruct (m !! (idx, 55233)) as [x|]; try refused_write.
  - eexists _, _, _. split; [reflexivity|]. split; [|reflexivity].
    split; [intros _; split; [reflexivity | eauto] | reflexivity].
  - eexists _, _, _. split; [reflexivity|]. split; [|discriminate].
    split; [discriminate | intros [_ [? H]]; discriminate H].
Qed.

Lemma has_type_accepts (id : NodeId) (v : Variant) (m : gmap NodeId Variant) :
  has_type id (dataType v) m <-> is_Some (m !! id) /\ accepts id v m = true.
Proof.
  unfold has_type, accepts. destruct (m !! id) as [old|]; cbn.
  - rewrite same_type_eq. split.
    + intros H. injection H as ->. eauto.
    + intros [_ ->]. reflexivity.
  - split; [discriminate | intros [[? H] _]; discriminate H].
Qed.

(** X11: the start-up statements of the machine-tool logic succeed exactly
    when the Channel1 node (i=55233), the only node that is written without
    a null check, resolves to a node of data type Int32 and none of the six
    writes is refused, that is, every other node the function names is
    absent or of the data type of the value written to it.  When they
    succeed the override counter starts at 50 and every named node that
    exists holds the value the function gives it.  In every case no node is
    added or removed, every node keeps its data type, and the nodes that the
    function does not name are left as they were. *)
Theorem startup_writes_existing_nodes (idx : Z) (w : World) :
  (fst (fst (createShowCaseMachineToolLogic idx w)) = Ok tt
     <-> has_type (idx, 55233) DtInt32 (nodes w) /\
         forall id v, In (id, v) (startup_values idx) ->
                      accepts id v (nodes w) = true) /\
  (fst (fst (createShowCaseMachineToolLogic idx w)) = Ok tt ->
     override (snd (fst (createShowCaseMachineToolLogic idx w))) = 50 /\
     forall id v, In (id, v) (startup_values idx) ->
       is_Some (nodes w !! id) ->
       nodes (snd (fst (createShowCaseMachineToolLogic idx w))) !! id = Some v) /\
  dom (nodes (snd (fst (createShowCaseMachineToolLogic idx w)))) = dom (nodes w) /\
  (forall id,
     dataType <$> nodes (snd (fst (createShowCaseMachineToolLogic idx w))) !! id
       = dataType <$> nodes w !! id) /\
  (forall id, (forall v, ~ In (id, v) (startup_values idx)) ->
     nodes (snd (fst (createShowCaseMachineToolLogic idx w))) !! id
       = nodes w !! id).
Proof.
  destruct (startup_equation idx w) as (r & o & tr & E & Hr & Ho).
  rewrite E. cbn [fst snd nodes override].
  rewrite write_all_accepts in Hr.
  split.
  { rewrite Hr. split.
    - intros [Hall Hc]. split; [|exact Hall].
      apply (has_type_accepts (idx, 55233) (mkVariant DtInt32 (VNumber (of_Z 1)))).
      split; [exact Hc|]. apply Hall. cbn. tauto.
    - intros [Hc Hall]. split; [exact Hall|].
      now apply (has_type_accepts (idx, 55233)
                   (mkVariant DtInt32 (VNumber (of_Z 1)))) in Hc. }
  split.
  { intros Hok. split; [now apply Ho|].
    apply Hr in Hok. destruct Hok as [Hall _].
    apply write_all_accepts in Hall.
    intros id v Hin [x Hx].
    unfold startup_values in *. cbn [write_all] in Hall |- *.
    destruct (accepts (idx, 55186) _ _); [|discriminate].
    destruct (accepts (idx, 55185) _ _); [|discriminate].
    destruct (accepts (idx, 55188) _ _); [|discriminate].
    destruct (accepts (idx, 55238) _ _); [|discriminate].
    destruct (accepts (idx, 55240) _ _); [|discriminate].
    destruct (accepts (idx, 55233) _ _); [|discriminate].
    cbn [snd]. cbn in Hin.
    repeat (destruct Hin as [Hin|Hin];
            [injection Hin as <- <-; rewrite !lookup_set_if_present;
             repeat (case_decide; try congruence); now rewrite Hx|]).
    destruct Hin. }
  split; [apply write_all_dom|].
  split; [intros id; apply write_all_types|].
  intros id Hid. now apply write_all_other.
Qed.

Lemma currentState_is_toggle (idx : Z) :
  currentState_tick idx = toggle (idx, 55188) (idx, 55190) "Running" "Ended".
Proof. reflexivity. Qed.

Lemma machineryItemState_is_toggle (idx : Z) :
  machineryItemState_tick idx = toggle (idx, 6011) (idx, 6012) "Executing" "NotExecuting".
Proof. reflexivity. Qed.

(** The first half of a run of a state timer whose state node carries a
    text: both nodes are looked up and the text is switched. *)
Lemma toggle_text (a b : NodeId) (on off t : string) (w : World) :
  nodes w !! a = Some (mkVariant DtLocalizedText (VLocalizedText t)) ->
  toggle a b on off w
  = let w1 := mkWorld (override w)
                (<[a := mkVariant DtLocalizedText
                          (VLocalizedText (if String.eqb t on then off else on))]>
                   (nodes w)) in
    match nodes w !! b with
    | Some _ =>
        let '(r, w2, tr) :=
          store b (mkVariant DtNodeId (VNodeId (0, if String.eqb t on then 2 else 1))) w1 in
        (r, w2, [FindNode a; FindNode b] ++ tr)
    | None => (Throw, w1, [FindNode a; FindNode b])
    end.
Proof.
  intros Ha.
  unfold toggle, bind, findNode, readText_opt, setValueFromSource_opt, setValueFromSource.
  cbn. rewrite Ha. cbn. rewrite Ha. cbn.
  destruct (String.eqb t on); cbn;
    (erewrite store_typed; [|exact Ha|reflexivity]); cbn;
    destruct (nodes w !! b); cbn; try reflexivity;
    destruct (store b _ _) as [[r w2] tr]; reflexivity.
Qed.

(** One run of a state timer when the state node carries a text and the
    state-number node is of data type NodeId. *)
Lemma toggle_step (a b : NodeId) (on off : string) (w : World) (t : string) :
  nodes w !! a = Some (mkVariant DtLocalizedText (VLocalizedText t)) ->
  has_type b DtNodeId (nodes w) ->
  toggle a b on off w
  = (Ok tt,
     mkWorld (override w)
       (<[b := mkVariant DtNodeId (VNodeId (0, if String.eqb t on then 2 else 1))]>
          (<[a := mkVariant DtLocalizedText
                    (VLocalizedText (if String.eqb t on then off else on))]>
             (nodes w))),
     [FindNode a; FindNode b]).
Proof.
  intros Ha Hb. rewrite (toggle_text a b on off t w Ha). cbn zeta.
  apply has_type_lookup in Hb. destruct Hb as (xb & Hb & Hbt). rewrite Hb.
  assert (Hab : a <> b).
  { intros ->. rewrite Ha in Hb. injection Hb as <-. discriminate. }
  erewrite store_typed; [reflexivity | | exact Hbt].
  cbn [nodes]. rewrite lookup_insert_ne by exact Hab. exact Hb.
Qed.

Lemma ticks_succ (h : M unit) (n : nat) (w w' : World) (tr : list Effect) :
  ticks h n w = (Ok tt, w', tr) ->
  ticks h (S n) w = (let '(r, w'', tr') := h w' in (r, w'', tr ++ tr')).
Proof. intros H. cbn [ticks]. unfold bind. now rewrite H. Qed.

Lemma has_type_insert (id : NodeId) (v : Variant) (m : gmap NodeId Variant) :
  has_type id (dataType v) (<[id := v]> m).
Proof. unfold has_type. now rewrite lookup_insert_eq. Qed.

Lemma toggle_run (a b : NodeId) (on off : string) (w : World) (n : nat) :
  String.eqb off on = false ->
  nodes w !! a = Some (mkVariant DtLocalizedText (VLocalizedText on)) ->
  has_type b DtNodeId (nodes w) ->
  exists w' tr,
    ticks (toggle a b on off) n w = (Ok tt, w', tr) /\
    nodes w' !! a
      = Some (mkVariant DtLocalizedText (VLocalizedText (if Nat.even n then on else off))) /\
    has_type b DtNodeId (nodes w') /\
    (n <> O ->
     nodes w' !! b
       = Some (mkVariant DtNodeId (VNodeId (0, if Nat.even n then 1 else 2)))) /\
    override w' = override w /\
    (forall id, id <> a -> id <> b -> nodes w' !! id = nodes w !! id).
Proof.
  intros Hoo Ha Hb.
  assert (Hab : a <> b).
  { intros ->. apply has_type_lookup in Hb. destruct Hb as (xb & Hb & Hbt).
    rewrite Ha in Hb. injection Hb as <-. discriminate. }
  induction n as [|n IH].
  - exists w, []. repeat split; try assumption; try reflexivity. congruence.
  - destruct IH as (w1 & tr1 & Hrun & Ha1 & Hb1 & _ & Ho1 & Hf1).
    rewrite (ticks_succ _ _ _ _ _ Hrun), (toggle_step a b on off w1 _ Ha1 Hb1).
    eexists _, _. split; [reflexivity|]. cbn [nodes override].
    rewrite Nat.even_succ, <- Nat.negb_even.
    assert (E : String.eqb (if Nat.even n then on else off) on = Nat.even n).
    { destruct (Nat.even n); [apply String.eqb_refl | exact Hoo]. }
    rewrite E.
    split; [rewrite lookup_insert_ne by congruence; rewrite lookup_insert_eq;
            destruct (Nat.even n); reflexivity|].
    split; [apply (has_type_insert b (mkVariant DtNodeId _))|].
    split; [intros _; rewrite lookup_insert_eq; destruct (Nat.even n); reflexivity|].
    split; [exact Ho1|].
    intros id H1 H2. rewrite !lookup_insert_ne by congruence. now apply Hf1.
Qed.

(** X12: when the CurrentState node carries the text "Running" (as the
    start-up leaves it) and the state-number node is of data type NodeId,
    [n] ticks of the CurrentState timer all succeed; afterwards the text is
    "Running" for even [n] and "Ended" for odd [n], the state number (once
    a tick has run) is the node id 1 or 2 accordingly, and the override
    counter and all other nodes are as before. *)
Theorem currentState_alternates (idx : Z) (w : World) (n : nat) :
  nodes w !! (idx, 55188)
    = Some (mkVariant DtLocalizedText (VLocalizedText "Running")) ->
  has_type (idx, 55190) DtNodeId (nodes w) ->
  exists w' tr,
    ticks (currentState_tick idx) n w = (Ok tt, w', tr) /\
    nodes w' !! (idx, 55188)
      = Some (mkVariant DtLocalizedText
                (VLocalizedText (if Nat.even n then "Running" else "Ended"))) /\
    (n <> O ->
     nodes w' !! (idx, 55190)
       = Some (mkVariant DtNodeId (VNodeId (0, if Nat.even n then 1 else 2)))) /\
    override w' = override w /\
    (forall id, id <> (idx, 55188) -> id <> (idx, 55190) ->
       nodes w' !! id = nodes w !! id).
Proof.
  intros Ha Hb. rewrite currentState_is_toggle.
  destruct (toggle_run (idx, 55188) (idx, 55190) "Running" "Ended" w n)
    as (w' & tr & H1 & H2 & _ & H3 & H4 & H5);
    [reflexivity | exact Ha | exact Hb |].
  exists w', tr. repeat split; assumption.
Qed.

(** X13: the same for the MachineryItemState timer, from the text
    "Executing" and with a state-number node of data type NodeId: after [n]
    ticks the text is "Executing" for even [n] and "NotExecuting" for odd
    [n], with the state number 1 or 2 accordingly. *)
Theorem machineryItemState_alternates (idx : Z) (w : World) (n : nat) :
  nodes w !! (idx, 6011)
    = Some (mkVariant DtLocalizedText (VLocalizedText "Executing")) ->
  has_type (idx, 6012) DtNodeId (nodes w) ->
  exists w' tr,
    ticks (machineryItemState_tick idx) n w = (Ok tt, w', tr) /\
    nodes w' !! (idx, 6011)
      = Some (mkVariant DtLocalizedText
                (VLocalizedText (if Nat.even n then "Executing" else "NotExecuting"))) /\
    (n <> O ->
     nodes w' !! (idx, 6012)
       = Some (mkVariant DtNodeId (VNodeId (0, if Nat.even n then 1 else 2)))) /\
    override w' = override w /\
    (forall id, id <> (idx, 6011) -> id <> (idx, 6012) ->
       nodes w' !! id = nodes w !! id).
Proof.
  intros Ha Hb. rewrite machineryItemState_is_toggle.
  destruct (toggle_run (idx, 6011) (idx, 6012) "Executing" "NotExecuting" w n)
    as (w' & tr & H1 & H2 & _ & H3 & H4 & H5);
    [reflexivity | exact Ha | exact Hb |].
  exists w', tr. repeat split; assumption.
Qed.

Lemma currentState_alternates_witness :
  exists w' tr,
    ticks (currentState_tick 2) 3
      (mkWorld 50
         (<[(2, 55188) := mkVariant DtLocalizedText (VLocalizedText "Running")]>
            {[ (2, 55190) := mkVariant DtNodeId (VNodeId (0, 1)) ]}))
      = (Ok tt, w', tr) /\
    nodes w' !! (2, 55188)
      = Some (mkVariant DtLocalizedText (VLocalizedText "Ended")) /\
    (3%nat <> O ->
     nodes w' !! (2, 55190) = Some (mkVariant DtNodeId (VNodeId (0, 2)))) /\
    override w' = 50 /\
    (forall id, id <> (2, 55188) -> id <> (2, 55190) ->
       nodes w' !! id
         = nodes (mkWorld 50
              (<[(2, 55188) := mkVariant DtLocalizedText (VLocalizedText "Running")]>
                 {[ (2, 55190) := mkVariant DtNodeId (VNodeId (0, 1)) ]})) !! id).
Proof.
  apply (currentState_alternates 2
           (mkWorld 50
              (<[(2, 55188) := mkVariant DtLocalizedText (VLocalizedText "Running")]>
                 {[ (2, 55190) := mkVariant DtNodeId (VNodeId (0, 1)) ]})) 3).
  - cbn [nodes]. apply lookup_insert_eq.
  - unfold has_type. cbn [nodes]. rewrite lookup_insert_ne by discriminate.
    rewrite lookup_singleton_eq. reflexivity.
Defined.

Lemma machineryItemState_alternates_witness :
  exists w' tr,
    ticks (machineryItemState_tick 2) 2
      (mkWorld 50
         (<[(2, 6011) := mkVariant DtLocalizedText (VLocalizedText "Executing")]>
            {[ (2, 6012) := mkVariant DtNodeId (VNodeId (0, 1)) ]}))
      = (Ok tt, w', tr) /\
    nodes w' !! (2, 6011)
      = Some (mkVariant DtLocalizedText (VLocalizedText "Executing")) /\
    (2%nat <> O ->
     nodes w' !! (2, 6012) = Some (mkVariant DtNodeId (VNodeId (0, 1)))) /\
    override w' = 50 /\
    (forall id, id <> (2, 6011) -> id <> (2, 6012) ->
       nodes w' !! id
         = nodes (mkWorld 50
              (<[(2, 6011) := mkVariant DtLocalizedText (VLocalizedText "Executing")]>
                 {[ (2, 6012) := mkVariant DtNodeId (VNodeId (0, 1)) ]})) !! id).
Proof.
  apply (machineryItemState_alternates 2
           (mkWorld 50
              (<[(2, 6011) := mkVariant DtLocalizedText (VLocalizedText "Executing")]>
                 {[ (2, 6012) := mkVariant DtNodeId (VNodeId (0, 1)) ]})) 2).
  - cbn [nodes]. apply lookup_insert_eq.
  - unfold has_type. cbn [nodes]. rewrite lookup_insert_ne by discriminate.
    rewrite lookup_singleton_eq. reflexivity.
Defined.

Lemma toggle_missing (a b : NodeId) (on off : string) (w : World) :
  missing_node_cases (toggle a b on off) a b on off w.
Proof.
  unfold missing_node_cases. repeat split.
  - intros t xb Ha Hb. rewrite (toggle_text a b on off t w Ha). cbn zeta.
    destruct Hb as [Hb | [Hb Ht]]; rewrite Hb; [reflexivity|].
    destruct (decide (a = b)) as [<- | Hab].
    + erewrite store_mistyped; [reflexivity | cbn [nodes]; apply lookup_insert_eq |].
      discriminate.
    + erewrite store_mistyped; [reflexivity | | exact Ht].
      cbn [nodes]. rewrite lookup_insert_ne by exact Hab. exact Hb.
  - intros Ha Hb. apply has_type_lookup in Hb. destruct Hb as (xb & Hb & Hbt).
    unfold toggle, bind, findNode, readText_opt, setValueFromSource_opt,
      setValueFromSource.
    cbn. rewrite Ha, Hb. cbn.
    erewrite store_typed; [reflexivity | exact Hb | exact Hbt].
  - intros dt Ha.
    unfold toggle, bind, findNode, readText_opt, setValueFromSource_opt,
      setValueFromSource.
    cbn. rewrite Ha. cbn. rewrite Ha. cbn.
    destruct (nodes w !! b); reflexivity.
  - intros Ha Hb.
    unfold toggle, bind, findNode, readText_opt, setValueFromSource_opt,
      setValueFromSource.
    cbn. rewrite Ha, Hb. reflexivity.
Qed.

(** X14: what the two state timers (CurrentState on the nodes 55188 and
    55190, MachineryItemState on 6011 and 6012) do when a node is missing,
    of another data type, or empty; the four cases hold for each of the two
    timers.  When the state node carries a text but the state-number node
    cannot be resolved or is not of data type NodeId, the tick throws after
    it has already switched the text; when only the state node is missing
    and the state-number node is of data type NodeId, the tick succeeds and
    sets the state number to 1; when the state node holds a null value, or
    both nodes are missing, the tick throws and changes nothing. *)
Theorem state_timers_with_missing_nodes (idx : Z) (w : World) :
  missing_node_cases (currentState_tick idx)
    (idx, 55188) (idx, 55190) "Running" "Ended" w /\
  missing_node_cases (machineryItemState_tick idx)
    (idx, 6011) (idx, 6012) "Executing" "NotExecuting" w.
Proof.
  rewrite currentState_is_toggle, machineryItemState_is_toggle.
  split; apply toggle_missing.
Qed.

Lemma state_timers_with_missing_nodes_witness :
  machineryItemState_tick 2
    (mkWorld 50 {[ (2, 6011) := mkVariant DtLocalizedText (VLocalizedText "Executing") ]})
  = (Throw,
     mkWorld 50
       (<[(2, 6011) := mkVariant DtLocalizedText (VLocalizedText "NotExecuting")]>
          {[ (2, 6011) := mkVariant DtLocalizedText (VLocalizedText "Executing") ]}),
     [FindNode (2, 6011); FindNode (2, 6012)]).
Proof.
  refine (proj1 (proj2 (state_timers_with_missing_nodes 2
    (mkWorld 50 {[ (2, 6011) := mkVariant DtLocalizedText (VLocalizedText "Executing") ]})))
    "Executing" (mkVariant DtNodeId VNull) _ _).
  - cbn [nodes]. apply lookup_singleton_eq.
  - left. cbn [nodes]. apply lookup_singleton_ne. discriminate.
Defined.

Lemma override_iter_closed_form (n : nat) :
  Nat.iter n override_next 50 = 50 + 5 * (Z.of_nat n mod 15).
Proof.
  induction n as [|n IH]; [reflexivity|].
  rewrite Nat.iter_succ, IH. unfold override_next. cbn zeta.
  rewrite Nat2Z.inj_succ.
  destruct (Z.gtb_spec (50 + 5 * (Z.of_nat n mod 15) + 5) 120);
    Z.div_mod_to_equations; lia.
Qed.

Lemma feedOverride_ticks (idx : Z) (w : World) (n : nat) :
  has_type (feedOverride_id idx) DtDouble (nodes w) ->
  exists w' tr,
    ticks (feedOverride_tick idx) n w = (Ok tt, w', tr) /\
    override w' = Nat.iter n override_next (override w) /\
    has_type (feedOverride_id idx) DtDouble (nodes w') /\
    (n <> O ->
     nodes w' !! feedOverride_id idx
       = Some (mkVariant DtDouble (VNumber (of_Z (override w'))))) /\
    (forall id, id <> feedOverride_id idx -> nodes w' !! id = nodes w !! id).
Proof.
  intros Hn. induction n as [|n IH].
  - exists w, []. repeat split; try assumption; try reflexivity. congruence.
  - destruct IH as (w1 & tr1 & Hrun & Ho & Hs & _ & Hf).
    rewrite (ticks_succ _ _ _ _ _ Hrun), (feedOverride_tick_present idx w1 Hs).
    eexists _, _. split; [reflexivity|].
    unfold after_feedOverride_tick. cbn [nodes override]. rewrite Nat.iter_succ, Ho.
    split; [reflexivity|].
    split; [apply (has_type_insert _ (mkVariant DtDouble _))|].
    split; [intros _; apply lookup_insert_eq|].
    intros id Hid. rewrite lookup_insert_ne by congruence. now apply Hf.
Qed.

(** X15: when the FeedOverride node is of data type Double and the counter
    has its initial value 50, [n] ticks of the generator all succeed;
    afterwards the counter is 50 + 5 * (n mod 15) (period 15: it climbs to
    120 and the next tick is the reset), the node holds that number (once a
    tick has run), and every other node is as before. *)
Theorem feedOverride_run_closed_form (idx : Z) (w : World) (n : nat) :
  has_type (feedOverride_id idx) DtDouble (nodes w) ->
  override w = 50 ->
  exists w' tr,
    ticks (feedOverride_tick idx) n w = (Ok tt, w', tr) /\
    override w' = 50 + 5 * (Z.of_nat n mod 15) /\
    (n <> O ->
     nodes w' !! feedOverride_id idx
       = Some (mkVariant DtDouble (VNumber (of_Z (50 + 5 * (Z.of_nat n mod 15)))))) /\
    (forall id, id <> feedOverride_id idx -> nodes w' !! id = nodes w !! id).
Proof.
  intros Hn Ho.
  destruct (feedOverride_ticks idx w n Hn) as (w' & tr & H1 & H2 & _ & H3 & H4).
  rewrite Ho, override_iter_closed_form in H2.
  exists w', tr. split; [exact H1|]. split; [exact H2|].
  split; [|exact H4]. intros Hz. rewrite <- H2. now apply H3.
Qed.

Lemma feedOverride_run_closed_form_witness :
  exists w' tr,
    ticks (feedOverride_tick 2) 15
      (mkWorld 50 {[ feedOverride_id 2 := mkVariant DtDouble (VNumber (of_Z 0)) ]})
      = (Ok tt, w', tr) /\
    override w' = 50 /\
    (15%nat <> O ->
     nodes w' !! feedOverride_id 2
       = Some (mkVariant DtDouble (VNumber (of_Z 50)))) /\
    (forall id, id <> feedOverride_id 2 ->
       nodes w' !! id
         = nodes (mkWorld 50
             {[ feedOverride_id 2 := mkVariant DtDouble (VNumber (of_Z 0)) ]}) !! id).
Proof.
  apply (feedOverride_run_closed_form 2
           (mkWorld 50 {[ feedOverride_id 2 := mkVariant DtDouble (VNumber (of_Z 0)) ]})
           15).
  - unfold has_type. cbn [nodes]. rewrite lookup_singleton_eq. reflexivity.
  - reflexivity.
Defined.

(** A store overwrites at most the value of its node. *)
Lemma store_frame (id : NodeId) (v : Variant) (w : World) :
  override (snd (fst (store id v w))) = override w /\
  dom (nodes (snd (fst (store id v w)))) = dom (nodes w) /\
  (forall j, j <> id -> nodes (snd (fst (store id v w))) !! j = nodes w !! j).
Proof.
  destruct (store_cases id v w) as [(old & Hx & _ & ->) | ->]; cbn [fst snd nodes override].
  - split; [reflexivity|]. split.
    + apply dom_insert_lookup_L. rewrite Hx; eauto.
    + intros j Hj. now apply lookup_insert_ne.
  - repeat split.
Qed.

Lemma two_stores_frame (a b : NodeId) (va vb : Variant) (w : World) :
  let r := (let '(r1, w1, t1) := store a va w in
            match r1 with
            | Ok _ => let '(r2, w2, t2) := store b vb w1 in (r2, w2, t1 ++ t2)
            | Throw => (Throw, w1, t1)
            end) in
  override (snd (fst r)) = override w /\
  dom (nodes (snd (fst r))) = dom (nodes w) /\
  (forall id, id <> a -> id <> b -> nodes (snd (fst r)) !! id = nodes w !! id).
Proof.
  cbn zeta.
  destruct (store_frame a va w) as (Ho1 & Hd1 & Hf1).
  destruct (store a va w) as [[r1 w1] t1]. cbn [fst snd] in *.
  destruct r1 as [u|].
  - destruct (store_frame b vb w1) as (Ho2 & Hd2 & Hf2).
    destruct (store b vb w1) as [[r2 w2] t2]. cbn [fst snd] in *.
    split; [congruence|]. split; [congruence|].
    intros id Ha Hb. rewrite Hf2 by exact Hb. now apply Hf1.
  - cbn [fst snd]. split; [exact Ho1|]. split; [exact Hd1|].
    intros id Ha _. now apply Hf1.
Qed.

Lemma toggle_frame (a b : NodeId) (on off : string) (w : World) :
  override (snd (fst (toggle a b on off w))) = override w /\
  dom (nodes (snd (fst (toggle a b on off w)))) = dom (nodes w) /\
  (forall id, id <> a -> id <> b ->
     nodes (snd (fst (toggle a b on off w))) !! id = nodes w !! id).
Proof.
  assert (Hb1 : forall vb,
    override (snd (fst (store b vb w))) = override w /\
    dom (nodes (snd (fst (store b vb w)))) = dom (nodes w) /\
    (forall id, id <> a -> id <> b ->
       nodes (snd (fst (store b vb w))) !! id = nodes w !! id)).
  { intros vb. destruct (store_frame b vb w) as (H1 & H2 & H3).
    repeat split; auto. }
  unfold toggle, bind, findNode, readText_opt, setValueFromSource_opt, setValueFromSource.
  cbn.
  destruct (nodes w !! a) as [[dt va]|] eqn:Ha; destruct (nodes w !! b) as [xb|] eqn:Hb;
    cbn; rewrite ?Ha; cbn.
  - destruct va as [|n|str|txt|id0|lo hi]; cbn; try destruct (String.eqb txt on); cbn;
      try (repeat split; reflexivity);
      match goal with
         | |- context [store a ?va w] =>
             match goal with
             | |- context [store b ?vb _] =>
                 pose proof (two_stores_frame a b va vb w) as H; cbn zeta in H;
                 destruct (store a va w) as [[r1 w1] t1]; destruct r1;
                 [destruct (store b vb w1) as [[r2 w2] t2]|]; exact H
             end
         end.
  - destruct va as [|n|str|txt|id0|lo hi]; cbn; try destruct (String.eqb txt on); cbn;
      try (repeat split; reflexivity);
      match goal with
         | |- context [store a ?va w] =>
             pose proof (store_frame a va w) as (H1 & H2 & H3);
             destruct (store a va w) as [[r1 w1] t1]; destruct r1; cbn [fst snd] in *;
             repeat split; auto
         end.
  - match goal with
    | |- context [store b ?vb w] =>
        pose proof (Hb1 vb) as H; destruct (store b vb w) as [[r2 w2] t2]; exact H
    end.
  - repeat split; reflexivity.
Qed.

(** X16: the three timers of the machine-tool logic only overwrite values of
    nodes that exist.  Whatever the address space holds and whether the tick
    returns or throws, no node is added or removed; the state timers leave
    the override counter and every node but their two alone, the override
    generator every node but FeedOverride. *)
Theorem timers_only_overwrite (idx : Z) (w : World) :
  (override (snd (fst (currentState_tick idx w))) = override w /\
   dom (nodes (snd (fst (currentState_tick idx w)))) = dom (nodes w) /\
   (forall id, id <> (idx, 55188) -> id <> (idx, 55190) ->
      nodes (snd (fst (currentState_tick idx w))) !! id = nodes w !! id)) /\
  (override (snd (fst (machineryItemState_tick idx w))) = override w /\
   dom (nodes (snd (fst (machineryItemState_tick idx w)))) = dom (nodes w) /\
   (forall id, id <> (idx, 6011) -> id <> (idx, 6012) ->
      nodes (snd (fst (machineryItemState_tick idx w))) !! id = nodes w !! id)) /\
  (dom (nodes (snd (fst (feedOverride_tick idx w)))) = dom (nodes w) /\
   (forall id, id <> (idx, 55229) ->
      nodes (snd (fst (feedOverride_tick idx w))) !! id = nodes w !! id)).
Proof.
  split; [apply toggle_frame|]. split; [apply toggle_frame|].
  destruct (feedOverride_tick_cases idx w) as [[-> Ht] | ->].
  - apply has_type_lookup in Ht. destruct Ht as (x & Hx & _).
    unfold after_feedOverride_tick. cbn [fst snd nodes]. split.
    + apply dom_insert_lookup_L. rewrite Hx; eauto.
    + intros id Hid. now apply lookup_insert_ne.
  - cbn [fst snd nodes]. split; reflexivity.
Qed.

End MachineToolRunFacts.
